(** * A set-associative cache level with pseudo-LRU replacement, a victim
      buffer, next-line prefetching and write-back (src/cache.cpp)

    The C++ class [Cache] is embedded as a record holding its member
    variables; every member function becomes a function on that record.
    Console output is kept as a list of events, one constructor per
    [cout] statement.  The mutual recursion between [accessCache] and
    [prefetchNextLine] is tied with a fuel argument: [None] means that the
    recursion did not come to an end within the given fuel. *)

From Stdlib Require Import ZArith Lia Bool List.
From stdpp Require Import base option list numbers.

Local Open Scope Z_scope.

(** ** Machine integers *)

(** [uint32_t] arithmetic wraps modulo 2^32. *)
Definition wrap32 (z : Z) : Z := z mod 2 ^ 32.

(** The bit-field [uint32_t tag : 30] of [CacheBlock] keeps the low thirty
    bits of whatever is assigned to it. *)
Definition trunc30 (z : Z) : Z := z mod 2 ^ 30.

(** The comparison [size_t >= int] in [addToVictimCache] converts the int
    to a 64-bit unsigned number. *)
Definition wrap64 (z : Z) : Z := z mod 2 ^ 64.

(** [__builtin_ctz]: the number of trailing zero bits.  The intrinsic takes
    an unsigned int; a negative int has the trailing zeros of its absolute
    value.  Its result at 0 is undefined in C++; the model gives 0 there and
    the constructor below rejects that case. *)
Fixpoint ctz_pos (p : positive) : Z :=
  match p with
  | xO p' => 1 + ctz_pos p'
  | _ => 0
  end.

Definition ctz (z : Z) : Z :=
  match z with
  | Z0 => 0
  | Zpos p => ctz_pos p
  | Zneg p => ctz_pos p
  end.

(** ** Data model *)

Record CacheBlock := mkBlock {
  valid : bool;
  dirty : bool;
  tag : Z;        (* 30-bit field: always in [0, 2^30) *)
  data : Z        (* placeholder, never read or written *)
}.

(** A value-initialised block, as [vector<CacheBlock>(ways)] creates it. *)
Definition emptyBlock : CacheBlock := mkBlock false false 0 0.

Definition set_dirty (b : CacheBlock) (d : bool) : CacheBlock :=
  mkBlock (valid b) d (tag b) (data b).

(** One constructor per line the two classes print. *)
Inductive Event :=
| EvHit (index : Z) (way : nat)   (* Cache hit at set .., way ..            *)
| EvVictimHit                     (* Cache hit in victim cache              *)
| EvMiss                          (* Cache miss, loading data into cache    *)
| EvWriteBackDirty                (* Writing back dirty block               *)
| EvWriteBack (t : Z)             (* Writing back block with tag .. to memory *)
| EvPrefetch (nextAddress : Z)    (* Prefetching next line: ..              *)
| EvAccessL1                      (* Accessing L1 Cache                     *)
| EvAccessL2                      (* Accessing L2 Cache                     *)
| EvMissBoth.                     (* Cache miss in both L1 and L2           *)

Record Cache := mkCache {
  cacheSize : Z;
  blockSize : Z;
  numSets : Z;
  ways : Z;
  sets : list (list CacheBlock);
  pseudoLRU : list (list Z);        (* uint8_t counters *)
  victimCache : list CacheBlock;    (* std::queue, front of the queue first *)
  victimCacheSize : Z;
  setMask : Z;
  tagMask : Z
}.

Definition with_sets (c : Cache) (s : list (list CacheBlock)) : Cache :=
  mkCache (cacheSize c) (blockSize c) (numSets c) (ways c) s (pseudoLRU c)
          (victimCache c) (victimCacheSize c) (setMask c) (tagMask c).

Definition with_pseudoLRU (c : Cache) (p : list (list Z)) : Cache :=
  mkCache (cacheSize c) (blockSize c) (numSets c) (ways c) (sets c) p
          (victimCache c) (victimCacheSize c) (setMask c) (tagMask c).

Definition with_victimCache (c : Cache) (q : list CacheBlock) : Cache :=
  mkCache (cacheSize c) (blockSize c) (numSets c) (ways c) (sets c)
          (pseudoLRU c) q (victimCacheSize c) (setMask c) (tagMask c).

(** ** Construction *)

(** [Cache::Cache].  Members are initialised in declaration order, so
    [numSets] is known when the two masks are computed.  The source has no
    check of its arguments.  [None] stands for the calls in which C++ itself
    yields no object: an integer division by zero, [__builtin_ctz(0)], a
    negative element count handed to [vector], a shift of [1] by more than
    30 positions. *)
Definition Cache_new (size block assoc victimSize : Z) : option Cache :=
  if (block =? 0) || (assoc =? 0) then None
  else
    let nSets := Z.quot (Z.quot size block) assoc in
    if (nSets <=? 0) || (assoc <? 0) || (30 <? ctz nSets + ctz block) then None
    else
      Some (mkCache size block nSets assoc
              (replicate (Z.to_nat nSets) (replicate (Z.to_nat assoc) emptyBlock))
              (replicate (Z.to_nat nSets) (replicate (Z.to_nat assoc) 0))
              []
              victimSize
              (wrap32 (Z.shiftl 1 (ctz nSets) - 1))
              (wrap32 (Z.lnot (Z.shiftl 1 (ctz nSets + ctz block) - 1)))).

(** ** Address decomposition (the first two lines of [accessCache] and of
    [prefetchNextLine]) *)

Definition addrIndex (c : Cache) (address : Z) : Z :=
  Z.land (Z.shiftr address (ctz (blockSize c))) (setMask c).

Definition addrTag (c : Cache) (address : Z) : Z :=
  Z.land address (tagMask c).

(** ** Element access

    [sets[index][way]] and [pseudoLRU[index]].  Indexing a vector out of
    range is undefined in C++; the model reads a default value and writes
    nothing there.  On a cache that the constructor has built no call gets
    there ([visited_in_range] below). *)

Definition getRow (c : Cache) (index : Z) : list CacheBlock :=
  default [] (sets c !! Z.to_nat index).

Definition getBlock (c : Cache) (index : Z) (way : nat) : CacheBlock :=
  default emptyBlock (getRow c index !! way).

Definition setBlock (c : Cache) (index : Z) (way : nat) (b : CacheBlock) : Cache :=
  with_sets c (alter (fun row => <[way := b]> row) (Z.to_nat index) (sets c)).

Definition getCounters (c : Cache) (index : Z) : list Z :=
  default [] (pseudoLRU c !! Z.to_nat index).

(** ** Replacement policy *)

(** [std::find(begin, end, 0) - begin]: the position of the first zero
    counter, the length of the row when there is none. *)
Fixpoint findZero (row : list Z) : nat :=
  match row with
  | [] => 0%nat
  | v :: rest => if v =? 0 then 0%nat else S (findZero rest)
  end.

Definition getPseudoLRU (c : Cache) (setIndex : Z) : nat :=
  findZero (getCounters c setIndex).

(** The loop of [updatePseudoLRU] over the ways of one set, [i] being the
    way of the head of [row].  A row has [ways] entries from construction
    on.  [pseudoLRU[..][i] + 1] is computed in int, so [min] sees no
    wrap-around. *)
Fixpoint updateRow (usedWay : nat) (i : nat) (row : list Z) : list Z :=
  match row with
  | [] => []
  | v :: rest =>
      (if bool_decide (i ≠ usedWay) then Z.min 255 (v + 1) else 0)
        :: updateRow usedWay (S i) rest
  end.

Definition updatePseudoLRU (c : Cache) (setIndex : Z) (usedWay : nat) : Cache :=
  with_pseudoLRU c (alter (updateRow usedWay 0) (Z.to_nat setIndex) (pseudoLRU c)).

(** ** Looking for a tag in a set *)

(** The scan shared by [predictWay] and [prefetchNextLine]: the first way
    whose block is valid and carries the tag. *)
Fixpoint scanWays (row : list CacheBlock) (t : Z) : option nat :=
  match row with
  | [] => None
  | b :: rest =>
      if valid b && (tag b =? t) then Some 0%nat else S <$> scanWays rest t
  end.

(** [predictWay]: the matching way, way 0 when no way matches. *)
Definition predictWay (c : Cache) (setIndex t : Z) : nat :=
  default 0%nat (scanWays (getRow c setIndex) t).

(** The flag [isAlreadyCached] of [prefetchNextLine]. *)
Definition isAlreadyCached (c : Cache) (index t : Z) : bool :=
  existsb (fun b => valid b && (tag b =? t)) (getRow c index).

(** ** Victim cache *)

(** [victimCache.front()] and [victimCache.pop()]; both are undefined on an
    empty queue in C++, the model gives a default there. *)
Definition front (q : list CacheBlock) : CacheBlock := default emptyBlock (head q).
Definition pop (q : list CacheBlock) : list CacheBlock := tail q.
Definition push (q : list CacheBlock) (b : CacheBlock) : list CacheBlock := q ++ [b].

(** The loop of [checkVictimCache]: [n] iterations remain.  Each iteration
    takes the front block off and pushes it at the back again, whether or
    not it matches. *)
Fixpoint checkVictimLoop (n : nat) (t : Z) (q : list CacheBlock)
  : bool * list CacheBlock * list Event :=
  match n with
  | O => (false, q, [])
  | S n' =>
      let victimBlock := front q in
      let q1 := pop q in
      if tag victimBlock =? t then (true, push q1 victimBlock, [EvVictimHit])
      else checkVictimLoop n' t (push q1 victimBlock)
  end.

Definition checkVictimCache (c : Cache) (t : Z) : bool * Cache * list Event :=
  let currentVictimSize := length (victimCache c) in
  let '(found, q, tr) := checkVictimLoop currentVictimSize t (victimCache c) in
  (found, with_victimCache c q, tr).

Definition addToVictimCache (c : Cache) (block : CacheBlock) : Cache :=
  let q := victimCache c in
  let q1 := if Z.of_nat (length q) >=? wrap64 (victimCacheSize c) then pop q else q in
  with_victimCache c (push q1 block).

(** [writeBack] works on a reference to the block in its slot. *)
Definition writeBack (c : Cache) (index : Z) (way : nat) : Cache * list Event :=
  let block := getBlock c index way in
  (setBlock c index way (set_dirty block false), [EvWriteBack (tag block)]).

Definition insertBlockToCache (c : Cache) (index : Z) (block : CacheBlock)
    (isWrite : bool) : Cache :=
  let replaceWay := getPseudoLRU c index in
  let c1 := setBlock c index replaceWay block in
  let c2 := setBlock c1 index replaceWay
              (set_dirty (getBlock c1 index replaceWay) isWrite) in
  updatePseudoLRU c2 index replaceWay.

(** ** Access and prefetch *)

Definition result : Type := bool * Cache * list Event.

(** [prefetchNextLine], with the call of [accessCache] it makes passed in
    as [access]. *)
Definition prefetchNextLine (access : Cache -> Z -> bool -> option result)
    (c : Cache) (address : Z) : option (Cache * list Event) :=
  let nextAddress := wrap32 (address + blockSize c) in
  let index := addrIndex c nextAddress in
  let t := addrTag c nextAddress in
  if isAlreadyCached c index t then Some (c, [])
  else
    match access c nextAddress false with
    | Some (_, c', tr) => Some (c', EvPrefetch nextAddress :: tr)
    | None => None
    end.

(** The three outcomes of a lookup change the cache as follows; the body of
    [accessCache] below strings them together in the order of the source. *)

(** Store hit (lines 55-56): mark dirty on a write, update the counters. *)
Definition hitUpdate (c : Cache) (index : Z) (predictedWay : nat) (isWrite : bool)
  : Cache :=
  let blk := getBlock c index predictedWay in
  let c1 := if isWrite then setBlock c index predictedWay (set_dirty blk true) else c in
  updatePseudoLRU c1 index predictedWay.

(** Victim hit (lines 63-64): the block now at the front of the queue goes
    into the set, then the front of the queue is popped. *)
Definition victimFill (c : Cache) (index : Z) (isWrite : bool) : Cache :=
  let c2 := insertBlockToCache c index (front (victimCache c)) isWrite in
  with_victimCache c2 (pop (victimCache c2)).

(** Miss (lines 69-87): choose the way, write back, evict, load, update. *)
Definition missFill (c : Cache) (index t : Z) (isWrite : bool) : Cache * list Event :=
  let replaceWay := getPseudoLRU c index in
  let old := getBlock c index replaceWay in
  let '(c2, trw) :=
    if valid old && dirty old then
      let '(c', tr') := writeBack c index replaceWay in
      (c', EvWriteBackDirty :: tr')
    else (c, []) in
  let c3 :=
    if valid (getBlock c2 index replaceWay)
    then addToVictimCache c2 (getBlock c2 index replaceWay)
    else c2 in
  let c4 := setBlock c3 index replaceWay
              (mkBlock true isWrite (trunc30 t)
                       (data (getBlock c3 index replaceWay))) in
  (updatePseudoLRU c4 index replaceWay, EvMiss :: trw).

(** The body of [accessCache]; [access] is the function itself as
    [prefetchNextLine] calls it. *)
Definition accessBody (access : Cache -> Z -> bool -> option result)
    (c : Cache) (address : Z) (isWrite : bool) : option result :=
  let index := addrIndex c address in
  let t := addrTag c address in
  let predictedWay := predictWay c index t in
  let blk := getBlock c index predictedWay in
  if valid blk && (tag blk =? t) then
    let c2 := hitUpdate c index predictedWay isWrite in
    match prefetchNextLine access c2 address with
    | Some (c3, tr) => Some (true, c3, EvHit index predictedWay :: tr)
    | None => None
    end
  else
    let '(found, c1, trv) := checkVictimCache c t in
    if found then Some (true, victimFill c1 index isWrite, trv)
    else
      let '(c5, trm) := missFill c1 index t isWrite in
      match prefetchNextLine access c5 address with
      | Some (c6, tr) => Some (false, c6, trv ++ trm ++ tr)
      | None => None
      end.

Fixpoint accessCache (fuel : nat) (c : Cache) (address : Z) (isWrite : bool)
  : option result :=
  match fuel with
  | O => None
  | S fuel' => accessBody (accessCache fuel') c address isWrite
  end.

(** A sequence of calls on one cache object, each with its own fuel. *)
Fixpoint accessAll (fuel : nat) (c : Cache) (ops : list (Z * bool))
  : option (Cache * list (bool * list Event)) :=
  match ops with
  | [] => Some (c, [])
  | (address, isWrite) :: rest =>
      match accessCache fuel c address isWrite with
      | Some (r, c', tr) =>
          match accessAll fuel c' rest with
          | Some (c'', out) => Some (c'', (r, tr) :: out)
          | None => None
          end
      | None => None
      end
  end.

(** ** The two-level hierarchy *)

Record MultiLevelCache := mkMultiLevelCache {
  l1Cache : Cache;
  l2Cache : Cache
}.

(** [MultiLevelCache::MultiLevelCache], with the sizes the source fixes. *)
Definition MultiLevelCache_new : option MultiLevelCache :=
  match Cache_new (32 * 1024) 64 8 8, Cache_new (256 * 1024) 64 8 16 with
  | Some l1, Some l2 => Some (mkMultiLevelCache l1 l2)
  | _, _ => None
  end.

(** [accessMemory]: L1 first, L2 on an L1 miss, and L1 once more after an
    L2 hit. *)
Definition accessMemory (fuel : nat) (m : MultiLevelCache) (address : Z)
    (isWrite : bool) : option (bool * MultiLevelCache * list Event) :=
  match accessCache fuel (l1Cache m) address isWrite with
  | None => None
  | Some (true, l1, tr1) =>
      Some (true, mkMultiLevelCache l1 (l2Cache m), EvAccessL1 :: tr1)
  | Some (false, l1, tr1) =>
      match accessCache fuel (l2Cache m) address isWrite with
      | None => None
      | Some (true, l2, tr2) =>
          match accessCache fuel l1 address isWrite with
          | None => None
          | Some (_, l1', tr3) =>
              Some (true, mkMultiLevelCache l1' l2,
                    EvAccessL1 :: tr1 ++ EvAccessL2 :: tr2 ++ tr3)
          end
      | Some (false, l2, tr2) =>
          Some (false, mkMultiLevelCache l1 l2,
                EvAccessL1 :: tr1 ++ EvAccessL2 :: tr2 ++ [EvMissBoth])
      end
  end.

(** The states a cache object can be in between calls. *)
Inductive reachable (c0 : Cache) : Cache -> Prop :=
| reach_init : reachable c0 c0
| reach_access c fuel address isWrite r c' tr :
    reachable c0 c ->
    accessCache fuel c address isWrite = Some (r, c', tr) ->
    reachable c0 c'.

(** ** Vocabulary of the properties *)

(** The address split in arithmetic form, for any cache whose masks have
    the shape the constructor gives them. *)
Record geometry (c : Cache) (s b : Z) : Prop := {
  geo_s : 0 <= s;
  geo_b : 0 <= b;
  geo_sb : s + b <= 30;
  geo_shift : ctz (blockSize c) = b;
  geo_setMask : setMask c = 2 ^ s - 1;
  geo_tagMask : tagMask c = 2 ^ 32 - 2 ^ (s + b)
}.

(** The counter rows one set can have: all zero at construction, then
    changed by [updatePseudoLRU] only, always for a way of the set. *)
Inductive lruReach (w : nat) : list Z -> Prop :=
| lru_fresh : lruReach w (replicate w 0)
| lru_used row usedWay :
    lruReach w row -> (usedWay < w)%nat ->
    lruReach w (updateRow usedWay 0 row).

(** The configuration of the end-to-end scenario of the specification:
    four sets of two ways, blocks of 16 bytes, two victim entries. *)
Definition fixture : Cache :=
  mkCache 128 16 4 2
          (replicate 4 (replicate 2 emptyBlock)) (replicate 4 (replicate 2 0))
          [] 2 3 4294967232.

Definition powerOfTwo (z : Z) : Prop := exists k, 0 <= k /\ z = 2 ^ k.

(** Some block of the victim queue carries the tag. *)
Definition inVictim (c : Cache) (t : Z) : bool :=
  existsb (fun b => tag b =? t) (victimCache c).

(** What follows a store hit or a fill: the call of [prefetchNextLine],
    spelled out.  [r] is the result of the access under way, [c1] the cache
    and [tr1] the output at the time of the call. *)
Definition prefetchStep (fuel : nat) (address : Z) (r : bool) (c1 : Cache)
    (tr1 : list Event) : option result :=
  let nextAddress := wrap32 (address + blockSize c1) in
  if isAlreadyCached c1 (addrIndex c1 nextAddress) (addrTag c1 nextAddress)
  then Some (r, c1, tr1)
  else
    match accessCache fuel c1 nextAddress false with
    | Some (_, c2, tr2) => Some (r, c2, tr1 ++ EvPrefetch nextAddress :: tr2)
    | None => None
    end.

(** The addresses for which [prefetchNextLine] called [accessCache]. *)
Definition prefetched (tr : list Event) : list Z :=
  flat_map (fun e => match e with EvPrefetch a => [a] | _ => [] end) tr.

(** All addresses [accessCache] was called for in a sequence of calls. *)
Definition accessedAddresses (ops : list (Z * bool))
    (out : list (bool * list Event)) : list Z :=
  map fst ops ++ flat_map (fun o => prefetched (snd o)) out.

(** The counter of way 0 is 0 in a fresh cache, so [getPseudoLRU] picks way
    0 for the first fill of a set; [updatePseudoLRU] then leaves way 0 as
    the only way with counter 0, and so on: the way just used is the way
    replaced next. *)
Definition way0Only (c : Cache) : Prop :=
  Forall (fun row => Forall (fun b => valid b = false) (tail row)) (sets c) /\
  Forall (fun row => findZero row = 0%nat) (pseudoLRU c).

(** No two valid ways of one set carry the same tag. *)
Definition tagsUnique (c : Cache) : Prop :=
  forall (i j k : nat) (row : list CacheBlock) (bj bk : CacheBlock),
    sets c !! i = Some row -> row !! j = Some bj -> row !! k = Some bk ->
    j <> k -> valid bj = true -> valid bk = true -> tag bj <> tag bk.

(** The states a cache passes through while calls are under way: each
    lookup, whether made by a caller or by a prefetch, changes the cache by
    one of the three updates.  These are also the states seen inside a
    cascade of prefetches that has not returned. *)
Inductive visited (c0 : Cache) : Cache -> Prop :=
| visit_init : visited c0 c0
| visit_hit c address isWrite :
    visited c0 c ->
    isAlreadyCached c (addrIndex c address) (addrTag c address) = true ->
    visited c0 (hitUpdate c (addrIndex c address)
                  (predictWay c (addrIndex c address) (addrTag c address))
                  isWrite)
| visit_victim c address isWrite :
    visited c0 c ->
    isAlreadyCached c (addrIndex c address) (addrTag c address) = false ->
    inVictim c (addrTag c address) = true ->
    visited c0 (victimFill (snd (fst (checkVictimCache c (addrTag c address))))
                  (addrIndex c address) isWrite)
| visit_miss c address isWrite :
    visited c0 c ->
    isAlreadyCached c (addrIndex c address) (addrTag c address) = false ->
    inVictim c (addrTag c address) = false ->
    visited c0 (fst (missFill c (addrIndex c address) (addrTag c address)
                       isWrite)).

(** A block whose tag is a value of the 30-bit field. *)
Definition inField (b : CacheBlock) : Prop := 0 <= tag b < 2 ^ 30.

(** Every tag stored in the cache is a value of the 30-bit field. *)
Definition tagsInField (c : Cache) : Prop :=
  Forall (Forall inField) (sets c) /\ Forall inField (victimCache c).

(** [c] has the configuration of [c0] and sets of the same sizes. *)
Definition sameShape (c0 c : Cache) : Prop :=
  map length (sets c) = map length (sets c0) /\
  blockSize c = blockSize c0 /\ setMask c = setMask c0 /\
  tagMask c = tagMask c0 /\ numSets c = numSets c0 /\ ways c = ways c0.

(** Index and tag in arithmetic form, and the address [d] blocks before [x]. *)
Definition lineIndex (s b a : Z) : Z := (a / 2 ^ b) mod 2 ^ s.
Definition lineTag (s b a : Z) : Z := a / 2 ^ (s + b) * 2 ^ (s + b).
Definition back (b x d : Z) : Z := wrap32 (x - d * 2 ^ b).

(** The stored tags of the victim queue [m] entries long when the cascade
    stands at address [x]: oldest first, the lines [2^s + m] down to
    [2^s + 1] blocks back. *)
Definition queueTags (s b : Z) (m : nat) (x : Z) : list Z :=
  map (fun j : nat => trunc30 (lineTag s b (back b x (2 ^ s + Z.of_nat j))))
      (rev (seq 1 m)).

(** The cache as the prefetch cascade finds it when it is about to call
    [accessCache] for address [x], [k] fills after it started on a fresh
    cache: the last [min k 2^s] lines before [x] sit in way 0 of their
    sets, the lines before those sit in the victim queue as far as it
    reaches. *)
Record cascadeInv (s b V k x : Z) (c : Cache) : Prop := {
  ci_geo : geometry c s b;
  ci_block : blockSize c = 2 ^ b;
  ci_vsize : victimCacheSize c = V;
  ci_len : length (sets c) = Z.to_nat (2 ^ s);
  ci_rows : Forall (fun row => row <> []) (sets c);
  ci_way0 : way0Only c;
  ci_k : 0 <= k;
  ci_x : 0 <= x < 2 ^ 32;
  ci_lines : forall d, 1 <= d <= 2 ^ s ->
    valid (getBlock c (lineIndex s b (back b x d)) 0) = (d <=? k) /\
    (d <= k ->
     tag (getBlock c (lineIndex s b (back b x d)) 0)
     = trunc30 (lineTag s b (back b x d)));
  ci_victim :
    map tag (victimCache c)
    = queueTags s b (Z.to_nat (Z.min V (Z.max 0 (k - 2 ^ s)))) x
}.

(** ** Further vocabulary *)

(** A cache of two sets of one way, blocks of 2^28 bytes, four victim
    entries: fresh, and as one read of address 0 leaves it. *)
Definition smallCache : Cache :=
  mkCache (2 ^ 29) (2 ^ 28) 2 1
          [[emptyBlock]; [emptyBlock]] [[0]; [0]] [] 4 1 (2 ^ 32 - 2 ^ 29).

Definition smallCacheWarm : Cache :=
  mkCache (2 ^ 29) (2 ^ 28) 2 1
          [[mkBlock true false 0 0]; [mkBlock true false (2 ^ 29) 0]]
          [[0]; [0]]
          [mkBlock true false (2 ^ 29) 0; mkBlock true false (2 ^ 29) 0;
           mkBlock true false 0 0]
          4 1 (2 ^ 32 - 2 ^ 29).

(** A cache of one set of two ways, blocks of 2^29 bytes, two victim
    entries: fresh, and as three hundred reads of address 0 leave it. *)
Definition twoWayCache : Cache :=
  mkCache (2 ^ 30) (2 ^ 29) 1 2
          [[emptyBlock; emptyBlock]] [[0; 0]] [] 2 0 (2 ^ 32 - 2 ^ 29).

Definition twoWayCacheWorn : Cache :=
  mkCache (2 ^ 30) (2 ^ 29) 1 2
          [[mkBlock true false 0 0; emptyBlock]] [[0; 255]] [] 2 0
          (2 ^ 32 - 2 ^ 29).

(** The counters are values of [uint8_t], one row per set and one counter
    per way. *)
Definition countersSound (c : Cache) : Prop :=
  length (pseudoLRU c) = Z.to_nat (numSets c) /\
  Forall (fun row => length row = Z.to_nat (ways c)) (pseudoLRU c) /\
  Forall (Forall (fun v => 0 <= v <= 255)) (pseudoLRU c).

(** The store has [numSets] sets of [ways] blocks. *)
Definition setsShaped (c : Cache) : Prop :=
  length (sets c) = Z.to_nat (numSets c) /\
  Forall (fun row => length row = Z.to_nat (ways c)) (sets c).

(** A dirty line in the store is valid; a block in the victim buffer is
    valid and clean. *)
Definition blocksSound (c : Cache) : Prop :=
  Forall (Forall (fun b => dirty b = true -> valid b = true)) (sets c) /\
  Forall (fun b => valid b = true /\ dirty b = false) (victimCache c).

(** Blocks handed to [addToVictimCache] one after the other. *)
Definition addAllToVictimCache (c : Cache) (blocks : list CacheBlock) : Cache :=
  fold_left addToVictimCache blocks c.

(** The line "Cache hit at set i, way w". *)
Definition isHit (e : Event) : bool :=
  match e with EvHit _ _ => true | _ => false end.

(** The lines [accessMemory] prints itself. *)
Definition isLevelEvent (e : Event) : bool :=
  match e with EvAccessL1 | EvAccessL2 | EvMissBoth => true | _ => false end.

(** ** [main] *)





(** * Properties *)

(** ** Trailing zeros and the two masks *)

Lemma ctz_pos_nonneg (p : positive) : 0 <= ctz_pos p.
Proof. induction p; simpl; lia. Qed.

Lemma ctz_nonneg (z : Z) : 0 <= ctz z.
Proof. destruct z; simpl; auto using ctz_pos_nonneg; lia. Qed.

Lemma ctz_pos_pow2_le (p : positive) : 2 ^ ctz_pos p <= Z.pos p.
Proof.
  induction p as [p IH | p IH |]; simpl ctz_pos.
  - change (2 ^ 0) with 1. lia.
  - rewrite Z.pow_add_r by (auto using ctz_pos_nonneg; lia).
    change (2 ^ 1) with 2. lia.
  - change (2 ^ 0) with 1. lia.
Qed.

Lemma ctz_pow2_le (z : Z) : 0 < z -> 2 ^ ctz z <= z.
Proof. destruct z; try lia. intros _. apply ctz_pos_pow2_le. Qed.

Lemma ctz_pow2 (k : Z) : 0 <= k -> ctz (2 ^ k) = k.
Proof.
  revert k. apply natlike_ind; [reflexivity |].
  intros k Hk IH. rewrite Z.pow_succ_r by lia.
  assert (Hpos : 0 < 2 ^ k) by (apply Z.pow_pos_nonneg; lia).
  destruct (2 ^ k) as [| p | p] eqn:E; try lia.
  change (2 * Z.pos p) with (Z.pos p~0). simpl in *. lia.
Qed.

Lemma wrap32_small (z : Z) : 0 <= z < 2 ^ 32 -> wrap32 z = z.
Proof. intros. unfold wrap32. apply Z.mod_small. lia. Qed.

Lemma wrap32_range (z : Z) : 0 <= wrap32 z < 2 ^ 32.
Proof. unfold wrap32. apply Z.mod_pos_bound. lia. Qed.

Lemma trunc30_range (z : Z) : 0 <= trunc30 z < 2 ^ 30.
Proof. unfold trunc30. apply Z.mod_pos_bound. lia. Qed.

Lemma pow2_le_30 (k : Z) : 0 <= k <= 30 -> 0 < 2 ^ k <= 2 ^ 30.
Proof.
  intros. split; [apply Z.pow_pos_nonneg; lia |].
  apply Z.pow_le_mono_r; lia.
Qed.

(** The set mask of a power of two is that power minus one. *)
Lemma setMask_value (k : Z) :
  0 <= k <= 30 -> wrap32 (Z.shiftl 1 k - 1) = 2 ^ k - 1.
Proof.
  intros Hk. rewrite Z.shiftl_1_l. apply wrap32_small.
  pose proof (pow2_le_30 k Hk). lia.
Qed.

(** The tag mask clears the low [k] bits of a 32-bit word. *)
Lemma tagMask_value (k : Z) :
  0 <= k <= 30 -> wrap32 (Z.lnot (Z.shiftl 1 k - 1)) = 2 ^ 32 - 2 ^ k.
Proof.
  intros Hk. rewrite Z.shiftl_1_l. unfold wrap32, Z.lnot.
  pose proof (pow2_le_30 k Hk).
  replace (Z.pred (- (2 ^ k - 1))) with (- 2 ^ k) by lia.
  symmetry. apply (Z.mod_unique_pos _ _ (-1)); lia.
Qed.

Lemma land_wrap32_lnot (a m : Z) :
  0 <= a < 2 ^ 32 -> Z.land a (wrap32 (Z.lnot m)) = Z.land a (Z.lnot m).
Proof.
  intros Ha. apply Z.bits_inj'. intros i Hi.
  rewrite !Z.land_spec. unfold wrap32.
  destruct (Z.ltb_spec i 32) as [Hlt | Hge].
  - rewrite Z.mod_pow2_bits_low by lia. reflexivity.
  - rewrite <- (Z.mod_small a (2 ^ 32)) by lia.
    rewrite Z.mod_pow2_bits_high by lia. reflexivity.
Qed.

Lemma land_lnot_low (a k : Z) :
  0 <= k -> Z.land a (Z.lnot (2 ^ k - 1)) = a / 2 ^ k * 2 ^ k.
Proof.
  intros Hk. replace (2 ^ k - 1) with (Z.ones k)
    by (rewrite Z.ones_equiv; lia).
  rewrite <- Z.ldiff_land, Z.ldiff_ones_r by lia.
  rewrite Z.shiftl_mul_pow2, Z.shiftr_div_pow2 by lia. reflexivity.
Qed.

Lemma land_low (a k : Z) : 0 <= k -> Z.land a (2 ^ k - 1) = a mod 2 ^ k.
Proof.
  intros Hk. replace (2 ^ k - 1) with (Z.ones k)
    by (rewrite Z.ones_equiv; lia).
  apply Z.land_ones. lia.
Qed.

(** ** What the constructor builds *)

Lemma Cache_new_inv (size block assoc victimSize : Z) (c : Cache) :
  Cache_new size block assoc victimSize = Some c ->
  block <> 0 /\ 0 < assoc /\ 0 < Z.quot (Z.quot size block) assoc /\
  ctz (Z.quot (Z.quot size block) assoc) + ctz block <= 30 /\
  c = mkCache size block (Z.quot (Z.quot size block) assoc) assoc
        (replicate (Z.to_nat (Z.quot (Z.quot size block) assoc))
                   (replicate (Z.to_nat assoc) emptyBlock))
        (replicate (Z.to_nat (Z.quot (Z.quot size block) assoc))
                   (replicate (Z.to_nat assoc) 0))
        [] victimSize
        (wrap32 (Z.shiftl 1 (ctz (Z.quot (Z.quot size block) assoc)) - 1))
        (wrap32 (Z.lnot (Z.shiftl 1 (ctz (Z.quot (Z.quot size block) assoc)
                                     + ctz block) - 1))).
Proof.
  unfold Cache_new. intros H.
  destruct ((block =? 0) || (assoc =? 0)) eqn:E1; [discriminate |].
  destruct ((Z.quot (Z.quot size block) assoc <=? 0) || (assoc <? 0)
            || (30 <? ctz (Z.quot (Z.quot size block) assoc) + ctz block)) eqn:E2;
    [discriminate |].
  apply orb_false_iff in E1 as [E1a E1b].
  apply orb_false_iff in E2 as [E2 E2c].
  apply orb_false_iff in E2 as [E2a E2b].
  injection H as <-. repeat split; lia.
Qed.

Lemma Cache_new_geometry (size block assoc victimSize : Z) (c : Cache) :
  Cache_new size block assoc victimSize = Some c ->
  geometry c (ctz (numSets c)) (ctz (blockSize c)).
Proof.
  intros H. apply Cache_new_inv in H as (Hb & Ha & Hn & Hk & ->). simpl.
  pose proof (ctz_nonneg (Z.quot (Z.quot size block) assoc)).
  pose proof (ctz_nonneg block).
  constructor; simpl; try lia.
  - apply setMask_value. lia.
  - apply tagMask_value. lia.
Qed.

Lemma addrIndex_arith (c : Cache) (s b a : Z) :
  geometry c s b -> addrIndex c a = (a / 2 ^ b) mod 2 ^ s.
Proof.
  intros [Hs Hb Hsb Hsh Hsm Htm]. unfold addrIndex.
  rewrite Hsh, Hsm, Z.shiftr_div_pow2 by lia. apply land_low. lia.
Qed.

Lemma addrTag_arith (c : Cache) (s b a : Z) :
  geometry c s b -> 0 <= a < 2 ^ 32 ->
  addrTag c a = a / 2 ^ (s + b) * 2 ^ (s + b).
Proof.
  intros [Hs Hb Hsb Hsh Hsm Htm] Ha. unfold addrTag.
  rewrite Htm, <- tagMask_value by lia.
  rewrite Z.shiftl_1_l, land_wrap32_lnot by lia.
  apply land_lnot_low. lia.
Qed.

(** ** Replacement counters *)

Lemma updateRow_length (u i : nat) (row : list Z) :
  length (updateRow u i row) = length row.
Proof. revert i. induction row as [| v row IH]; intros i; simpl; auto. Qed.

Lemma updateRow_lookup (u i j : nat) (row : list Z) :
  updateRow u i row !! j =
  (fun v => if bool_decide ((i + j)%nat ≠ u) then Z.min 255 (v + 1) else 0)
    <$> row !! j.
Proof.
  revert i j. induction row as [| v row IH]; intros i j; [reflexivity |].
  destruct j as [| j]; simpl.
  - rewrite Nat.add_0_r. reflexivity.
  - rewrite IH. replace (S i + j)%nat with (i + S j)%nat by lia. reflexivity.
Qed.

Lemma updateRow_bounds (u i : nat) (row : list Z) :
  Forall (fun v => 0 <= v <= 255) row ->
  Forall (fun v => 0 <= v <= 255) (updateRow u i row).
Proof.
  intros H. revert i. induction H as [| v row Hv H IH]; intros i; simpl.
  - constructor.
  - constructor; [| apply IH]. case_bool_decide; lia.
Qed.

Lemma lruReach_shape (w : nat) (row : list Z) :
  lruReach w row -> length row = w /\ Forall (fun v => 0 <= v <= 255) row.
Proof.
  induction 1 as [| row u _ [IHl IHb] _].
  - split; [apply length_replicate |].
    apply Forall_replicate. lia.
  - split; [rewrite updateRow_length; exact IHl |].
    apply updateRow_bounds, IHb.
Qed.

Lemma findZero_unique (row : list Z) (u : nat) :
  (u < length row)%nat ->
  (forall j, row !! j = Some 0 <-> j = u) ->
  findZero row = u.
Proof.
  revert u. induction row as [| v row IH]; intros u Hu H; simpl in *; [lia |].
  destruct (Z.eqb_spec v 0) as [-> | Hv].
  - apply (proj1 (H 0%nat)). reflexivity.
  - destruct u as [| u].
    + exfalso. apply Hv. specialize (proj2 (H 0%nat) eq_refl) as E.
      simpl in E. congruence.
    + f_equal. apply IH; [lia |]. intros j. specialize (H (S j)). simpl in H.
      rewrite H. lia.
Qed.

Lemma findZero_fresh (w : nat) : (0 < w)%nat -> findZero (replicate w 0) = 0%nat.
Proof. destruct w; [lia | reflexivity]. Qed.

Lemma updateRow_one_zero (u : nat) (row : list Z) :
  (u < length row)%nat -> Forall (fun v => 0 <= v <= 255) row ->
  forall j, updateRow u 0 row !! j = Some 0 <-> j = u.
Proof.
  intros Hu Hb j. rewrite updateRow_lookup. simpl.
  destruct (row !! j) as [v |] eqn:E; simpl.
  - assert (0 <= v <= 255) by (eapply (proj1 (Forall_lookup _ _) Hb); eauto).
    case_bool_decide as Hj.
    + split; [intros [= ?]; lia | congruence].
    + split; [intros _; destruct (decide (j = u)); [done | contradiction] | done].
  - split; [discriminate |]. intros ->.
    apply lookup_ge_None in E. lia.
Qed.

Lemma getCounters_update (c : Cache) (setIndex : Z) (usedWay : nat) :
  getCounters (updatePseudoLRU c setIndex usedWay) setIndex =
  updateRow usedWay 0 (getCounters c setIndex).
Proof.
  unfold getCounters, updatePseudoLRU. simpl.
  rewrite list_lookup_alter_eq.
  destruct (pseudoLRU c !! Z.to_nat setIndex); reflexivity.
Qed.

(** C9.  Counters of one set, started all zero and changed only by
    [updatePseudoLRU]: an update sets the counter of the used way to 0 and
    every other counter to min(255, old + 1); after it exactly the used way
    has counter 0, which is the way [getPseudoLRU] then returns; and before
    and after it the scan of [getPseudoLRU] ends on a way of the set. *)
Theorem pseudoLRU_one_zero_after_update (c : Cache) (setIndex : Z) (usedWay : nat) :
  lruReach (Z.to_nat (ways c)) (getCounters c setIndex) ->
  (usedWay < Z.to_nat (ways c))%nat ->
  let row := getCounters c setIndex in
  let row' := getCounters (updatePseudoLRU c setIndex usedWay) setIndex in
  row' !! usedWay = Some 0 /\
  (forall i v, i <> usedWay -> row !! i = Some v ->
               row' !! i = Some (Z.min 255 (v + 1))) /\
  (forall i, row' !! i = Some 0 <-> i = usedWay) /\
  getPseudoLRU (updatePseudoLRU c setIndex usedWay) setIndex = usedWay /\
  (getPseudoLRU c setIndex < Z.to_nat (ways c))%nat.
Proof.
  intros Hreach Hway row row'. subst row row'.
  rewrite getCounters_update. unfold getPseudoLRU.
  rewrite getCounters_update.
  destruct (lruReach_shape _ _ Hreach) as [Hlen Hb].
  assert (Hlt : (usedWay < length (getCounters c setIndex))%nat) by lia.
  pose proof (updateRow_one_zero usedWay _ Hlt Hb) as Hone.
  split; [apply Hone; reflexivity |].
  split.
  { intros i v Hi Hv. rewrite updateRow_lookup, Hv. simpl.
    rewrite bool_decide_true by done. reflexivity. }
  split; [exact Hone |].
  split.
  { apply findZero_unique; [rewrite updateRow_length; lia | exact Hone]. }
  inversion Hreach as [E | r u Hr Hu E].
  - rewrite findZero_fresh; lia.
  - destruct (lruReach_shape _ _ Hr) as [Hl' Hb'].
    rewrite (findZero_unique _ u); [exact Hu | |].
    + rewrite updateRow_length. lia.
    + apply updateRow_one_zero; [lia | exact Hb'].
Qed.

Lemma fixture_new : Cache_new 128 16 2 2 = Some fixture.
Proof. vm_compute. reflexivity. Qed.

Lemma pseudoLRU_one_zero_witness :
  exists c, Cache_new 128 16 2 2 = Some c /\
    lruReach (Z.to_nat (ways c)) (getCounters c 1) /\
    (1 < Z.to_nat (ways c))%nat /\
    getPseudoLRU (updatePseudoLRU c 1 1) 1 = 1%nat /\
    getCounters (updatePseudoLRU c 1 1) 1 = [1; 0].
Proof.
  exists fixture. split; [vm_compute; reflexivity |].
  assert (Hr : lruReach (Z.to_nat (ways fixture)) (getCounters fixture 1))
    by apply (lru_fresh 2).
  assert (Hw : (1 < Z.to_nat (ways fixture))%nat) by (vm_compute; lia).
  split; [exact Hr |]. split; [exact Hw |].
  split; [| reflexivity].
  exact (proj1 (proj2 (proj2 (proj2
    (pseudoLRU_one_zero_after_update fixture 1 1%nat Hr Hw))))).
Defined.

(** ** Address decomposition *)

(** C10.  With a block size 2^b and a set count 2^s, the index and the tag
    that [accessCache] computes for a 32-bit address are
    (address >> log2 blockSize) & (numSets - 1) and
    address & ~(numSets * blockSize - 1). *)
Theorem address_decomposition
    (size block assoc victimSize : Z) (c : Cache) (s b address : Z) :
  Cache_new size block assoc victimSize = Some c ->
  0 <= s -> 0 <= b ->
  blockSize c = 2 ^ b -> numSets c = 2 ^ s ->
  0 <= address < 2 ^ 32 ->
  addrIndex c address =
    Z.land (Z.shiftr address (Z.log2 (blockSize c))) (numSets c - 1) /\
  addrTag c address =
    Z.land address (Z.lnot (numSets c * blockSize c - 1)).
Proof.
  intros Hnew Hs Hb HB HN Ha.
  pose proof (Cache_new_geometry _ _ _ _ _ Hnew) as G.
  rewrite HB, HN, !ctz_pow2 in G by lia.
  split.
  - unfold addrIndex. rewrite (geo_setMask _ _ _ G), (geo_shift _ _ _ G).
    rewrite HB, HN, Z.log2_pow2 by lia. reflexivity.
  - rewrite (addrTag_arith _ _ _ _ G Ha).
    rewrite HB, HN, <- Z.pow_add_r by lia.
    symmetry. apply land_lnot_low. lia.
Qed.

Lemma address_decomposition_witness :
  exists c, Cache_new 128 16 2 2 = Some c /\
    blockSize c = 2 ^ 4 /\ numSets c = 2 ^ 2 /\
    addrIndex c 100 = Z.land (Z.shiftr 100 (Z.log2 (blockSize c))) (numSets c - 1) /\
    addrTag c 100 = Z.land 100 (Z.lnot (numSets c * blockSize c - 1)).
Proof.
  exists fixture. split; [vm_compute; reflexivity |].
  split; [reflexivity |]. split; [reflexivity |].
  apply (address_decomposition 128 16 2 2 fixture 2 4 100);
    [vm_compute; reflexivity | lia | lia | reflexivity | reflexivity | lia].
Defined.

(** ** Construction never rejects a configuration *)

Lemma six_not_powerOfTwo : ~ powerOfTwo 6.
Proof.
  intros (k & Hk & E).
  destruct (Z.le_gt_cases k 2) as [Hle | Hgt].
  - assert (2 ^ k <= 2 ^ 2) by (apply Z.pow_le_mono_r; lia).
    change (2 ^ 2) with 4 in *. lia.
  - assert (2 ^ 3 <= 2 ^ k) by (apply Z.pow_le_mono_r; lia).
    change (2 ^ 3) with 8 in *. lia.
Qed.

(** Counterexample to C7: 96 bytes in blocks of 16 with one way give six
    sets.  The constructor returns a cache all the same; its set mask is 1,
    so the block at address 32, the third block, lands in set 0 and sets 2
    to 5 are never used. *)
Lemma Cache_new_accepts_six_sets :
  exists c, Cache_new 96 16 1 2 = Some c /\
    numSets c = 6 /\ ~ powerOfTwo (numSets c) /\
    setMask c = 1 /\ addrIndex c 32 = 0 /\ (32 / blockSize c) mod numSets c = 2.
Proof.
  eexists. split; [vm_compute; reflexivity |].
  split; [reflexivity |]. split; [exact six_not_powerOfTwo |].
  repeat split.
Qed.

(** C7, as the code has it.  The constructor validates nothing: for every
    positive block size and associativity that give at least one set (and a
    capacity that fits an int) it returns a cache, power of two or not.  The
    masks come from the trailing zeros of the two numbers, so the index of
    an address is (address / 2^ctz blockSize) mod 2^ctz numSets, a set that
    exists.  That is (address / blockSize) mod numSets for every address
    when both numbers are powers of two, and also when there is one set; in
    every other configuration some 32-bit address gets another set. *)
Theorem Cache_new_never_rejects (size block assoc victimSize : Z) :
  0 < block -> 0 < assoc -> 0 < size / block / assoc -> size < 2 ^ 31 ->
  exists c, Cache_new size block assoc victimSize = Some c /\
    numSets c = size / block / assoc /\
    setMask c = 2 ^ ctz (numSets c) - 1 /\
    tagMask c = 2 ^ 32 - 2 ^ (ctz (numSets c) + ctz block) /\
    (forall address,
      addrIndex c address = (address / 2 ^ ctz block) mod 2 ^ ctz (numSets c) /\
      0 <= addrIndex c address < numSets c) /\
    (powerOfTwo block /\ powerOfTwo (numSets c) \/ numSets c = 1 ->
     forall address, addrIndex c address = (address / block) mod numSets c) /\
    (~ (powerOfTwo block /\ powerOfTwo (numSets c)) -> numSets c <> 1 ->
     exists address,
       0 <= address < 2 ^ 32 /\
       addrIndex c address <> (address / block) mod numSets c).
Proof.
  intros Hb Ha Hn Hsz.
  assert (Hsize : 0 <= size).
  { destruct (Z.lt_ge_cases size 0) as [Hneg |]; [| lia].
    assert (size / block < 0) by (apply Z.div_lt_upper_bound; lia).
    assert (size / block / assoc < 0) by (apply Z.div_lt_upper_bound; lia).
    lia. }
  assert (Hq : Z.quot (Z.quot size block) assoc = size / block / assoc).
  { rewrite (Z.quot_div_nonneg size block) by lia.
    apply Z.quot_div_nonneg; [apply Z.div_pos; lia | lia]. }
  set (n := size / block / assoc) in *.
  assert (Hnb : n * block <= size).
  { assert (n * assoc <= size / block).
    { unfold n. rewrite Z.mul_comm. apply Z.mul_div_le. lia. }
    assert (size / block * block <= size).
    { rewrite Z.mul_comm. apply Z.mul_div_le. lia. }
    nia. }
  pose proof (ctz_nonneg n) as Hcn. pose proof (ctz_nonneg block) as Hcb.
  pose proof (ctz_pow2_le n Hn) as Hln. pose proof (ctz_pow2_le block Hb) as Hlb.
  assert (Hk : ctz n + ctz block <= 30).
  { destruct (Z.le_gt_cases (ctz n + ctz block) 30) as [| Hgt]; [lia |].
    assert (2 ^ 31 <= 2 ^ (ctz n + ctz block)) by (apply Z.pow_le_mono_r; lia).
    rewrite Z.pow_add_r in * by lia.
    assert (0 < 2 ^ ctz n) by (apply Z.pow_pos_nonneg; lia).
    assert (0 < 2 ^ ctz block) by (apply Z.pow_pos_nonneg; lia).
    nia. }
  assert (Hnew : Cache_new size block assoc victimSize =
    Some (mkCache size block n assoc
            (replicate (Z.to_nat n) (replicate (Z.to_nat assoc) emptyBlock))
            (replicate (Z.to_nat n) (replicate (Z.to_nat assoc) 0))
            [] victimSize
            (wrap32 (Z.shiftl 1 (ctz n) - 1))
            (wrap32 (Z.lnot (Z.shiftl 1 (ctz n + ctz block) - 1))))).
  { unfold Cache_new. rewrite Hq.
    replace (block =? 0) with false by (symmetry; apply Z.eqb_neq; lia).
    replace (assoc =? 0) with false by (symmetry; apply Z.eqb_neq; lia).
    replace (n <=? 0) with false by (symmetry; apply Z.leb_gt; lia).
    replace (assoc <? 0) with false by (symmetry; apply Z.ltb_ge; lia).
    replace (30 <? ctz n + ctz block) with false
      by (symmetry; apply Z.ltb_ge; lia).
    reflexivity. }
  match type of Hnew with _ = Some ?c0 => set (c := c0) in Hnew end.
  pose proof (Cache_new_geometry _ _ _ _ _ Hnew) as G.
  change (numSets c) with n in G. change (blockSize c) with block in G.
  assert (HI : forall a, addrIndex c a = (a / 2 ^ ctz block) mod 2 ^ ctz n)
    by (intros a; exact (addrIndex_arith _ _ _ a G)).
  assert (Hpn : 0 < 2 ^ ctz n) by (apply Z.pow_pos_nonneg; lia).
  assert (Hpb : 0 < 2 ^ ctz block) by (apply Z.pow_pos_nonneg; lia).
  exists c. split; [exact Hnew |].
  change (numSets c) with n.
  split; [reflexivity |].
  split; [exact (setMask_value (ctz n) ltac:(lia)) |].
  split; [exact (tagMask_value (ctz n + ctz block) ltac:(lia)) |].
  split; [| split].
  - intros address. split; [apply HI |]. rewrite HI.
    pose proof (Z.mod_pos_bound (address / 2 ^ ctz block) (2 ^ ctz n) Hpn). lia.
  - intros [[(kb & Hkb & Eb) (kn & Hkn & En)] | E1] address; rewrite HI.
    + rewrite Eb, En, !ctz_pow2 by lia. reflexivity.
    + rewrite E1. change (ctz 1) with 0.
      rewrite Z.pow_0_r, !Z.mod_1_r. reflexivity.
  - intros Hnot Hn1.
    destruct (Z.eq_dec (2 ^ ctz n) n) as [En | En].
    + assert (Hb2 : 2 ^ ctz block < block).
      { destruct (Z.eq_dec (2 ^ ctz block) block) as [Eb | Eb]; [| lia].
        exfalso. apply Hnot.
        split; [exists (ctz block) | exists (ctz n)]; split; auto. }
      assert (Hcn1 : 1 <= ctz n).
      { destruct (Z.eq_dec (ctz n) 0) as [E0 |]; [| lia].
        rewrite E0 in En. change (2 ^ 0) with 1 in En. lia. }
      assert (H2 : 2 ^ 1 <= 2 ^ ctz n) by (apply Z.pow_le_mono_r; lia).
      change (2 ^ 1) with 2 in H2.
      exists (2 ^ ctz block). split; [nia |].
      rewrite HI, Z.div_same by lia.
      rewrite (Z.mod_small 1) by lia.
      rewrite (Z.div_small (2 ^ ctz block) block) by lia.
      rewrite Z.mod_0_l by lia. lia.
    + exists ((n - 1) * block). split; [nia |].
      rewrite HI, Z.div_mul by lia.
      rewrite (Z.mod_small (n - 1) n) by lia.
      pose proof (Z.mod_pos_bound ((n - 1) * block / 2 ^ ctz block)
                    (2 ^ ctz n) Hpn).
      lia.
Qed.

Lemma Cache_new_never_rejects_witness :
  0 < 16 /\ 0 < 1 /\ 0 < 96 / 16 / 1 /\ 96 < 2 ^ 31 /\
  exists c, Cache_new 96 16 1 2 = Some c /\
    numSets c = 96 / 16 / 1 /\
    setMask c = 2 ^ ctz (numSets c) - 1 /\
    tagMask c = 2 ^ 32 - 2 ^ (ctz (numSets c) + ctz 16) /\
    (forall address,
      addrIndex c address = (address / 2 ^ ctz 16) mod 2 ^ ctz (numSets c) /\
      0 <= addrIndex c address < numSets c) /\
    (powerOfTwo 16 /\ powerOfTwo (numSets c) \/ numSets c = 1 ->
     forall address, addrIndex c address = (address / 16) mod numSets c) /\
    (~ (powerOfTwo 16 /\ powerOfTwo (numSets c)) -> numSets c <> 1 ->
     exists address,
       0 <= address < 2 ^ 32 /\
       addrIndex c address <> (address / 16) mod numSets c).
Proof.
  split; [lia |]. split; [lia |]. split; [reflexivity |]. split; [reflexivity |].
  apply (Cache_new_never_rejects 96 16 1 2); [lia | lia | reflexivity | reflexivity].
Defined.

(** ** Reading and writing one slot *)

Lemma with_victimCache_same (c : Cache) : with_victimCache c (victimCache c) = c.
Proof. destruct c; reflexivity. Qed.

Lemma getBlock_setBlock_same (c : Cache) (index : Z) (way : nat) (b : CacheBlock) :
  (way < length (getRow c index))%nat ->
  getBlock (setBlock c index way b) index way = b.
Proof.
  unfold getBlock, getRow, setBlock. simpl. intros Hw.
  rewrite list_lookup_alter_eq.
  destruct (sets c !! Z.to_nat index) as [row |]; simpl in *; [| lia].
  rewrite list_lookup_insert_eq by exact Hw. reflexivity.
Qed.

(** ** The scan of a set *)

Lemma scanWays_Some (row : list CacheBlock) (t : Z) (w : nat) :
  scanWays row t = Some w ->
  exists b, row !! w = Some b /\ valid b && (tag b =? t) = true.
Proof.
  revert w. induction row as [| b row IH]; intros w; simpl; [discriminate |].
  destruct (valid b && (tag b =? t)) eqn:E.
  - intros [= <-]. exists b. split; [reflexivity | exact E].
  - destruct (scanWays row t) as [w' |]; simpl; [| discriminate].
    intros [= <-]. apply IH. reflexivity.
Qed.

Lemma scanWays_None (row : list CacheBlock) (t : Z) :
  scanWays row t = None ->
  Forall (fun b => valid b && (tag b =? t) = false) row.
Proof.
  induction row as [| b row IH]; simpl; [constructor |].
  destruct (valid b && (tag b =? t)) eqn:E; [discriminate |].
  destruct (scanWays row t); simpl; [discriminate |].
  intros _. constructor; [exact E | apply IH; reflexivity].
Qed.

Lemma existsb_false_Forall {A : Type} (f : A -> bool) (l : list A) :
  existsb f l = false <-> Forall (fun x => f x = false) l.
Proof.
  induction l as [| x l IH]; simpl.
  - split; [constructor | reflexivity].
  - rewrite orb_false_iff, IH. split.
    + intros [? ?]. constructor; assumption.
    + inversion 1; subst. split; assumption.
Qed.

(** The test [sets[index][predictedWay].valid && .tag == tag] of
    [accessCache] succeeds exactly when some way of the set holds the tag,
    which is the test [prefetchNextLine] makes. *)
Lemma hit_test_isAlreadyCached (c : Cache) (index t : Z) :
  valid (getBlock c index (predictWay c index t))
  && (tag (getBlock c index (predictWay c index t)) =? t)
  = isAlreadyCached c index t.
Proof.
  unfold getBlock, predictWay, isAlreadyCached.
  destruct (scanWays (getRow c index) t) as [w |] eqn:E; simpl.
  - destruct (scanWays_Some _ _ _ E) as (b & Hb & Hc). rewrite Hb. simpl.
    rewrite Hc. symmetry. apply existsb_exists. exists b.
    split; [| exact Hc]. apply list_elem_of_In, list_elem_of_lookup. eauto.
  - pose proof (scanWays_None _ _ E) as Hall.
    rewrite (proj2 (existsb_false_Forall _ _) Hall).
    destruct (getRow c index) as [| b row]; [reflexivity |].
    simpl. inversion Hall; subst. assumption.
Qed.

(** ** The scan of the victim queue *)

Lemma checkVictimLoop_rotate (pre rest : list CacheBlock) (t : Z) (k : nat) :
  Forall (fun b => tag b <> t) pre ->
  checkVictimLoop (length pre + k) t (pre ++ rest) =
  checkVictimLoop k t (rest ++ pre).
Proof.
  intros H. revert rest.
  induction H as [| p pre Hp H IH]; intros rest; simpl.
  - rewrite app_nil_r. reflexivity.
  - change (front (p :: pre ++ rest)) with p.
    unfold push. apply Z.eqb_neq in Hp. rewrite Hp.
    rewrite <- app_assoc, IH, <- app_assoc. reflexivity.
Qed.

(** A tag that is absent: the queue has gone round once and is as before. *)
Lemma checkVictimLoop_absent (q : list CacheBlock) (t : Z) :
  Forall (fun b => tag b <> t) q ->
  checkVictimLoop (length q) t q = (false, q, []).
Proof.
  intros H. pose proof (checkVictimLoop_rotate q [] t 0 H) as E.
  rewrite Nat.add_0_r, app_nil_r in E. exact E.
Qed.

(** A tag that is present: the first block carrying it, [b], is taken off
    and pushed at the back like every block before it; the scan ends with
    the block after [b] at the front of the queue. *)
Lemma checkVictimLoop_found (pre post : list CacheBlock) (b : CacheBlock) (t : Z) :
  Forall (fun x => tag x <> t) pre -> tag b = t ->
  checkVictimLoop (length (pre ++ b :: post)) t (pre ++ b :: post) =
  (true, post ++ pre ++ [b], [EvVictimHit]).
Proof.
  intros H Hb. rewrite length_app.
  rewrite (checkVictimLoop_rotate pre (b :: post) t _ H). simpl.
  change (front (b :: post ++ pre)) with b.
  apply Z.eqb_eq in Hb. rewrite Hb. unfold push.
  rewrite <- app_assoc. reflexivity.
Qed.

Lemma first_match_split (q : list CacheBlock) (t : Z) :
  existsb (fun b => tag b =? t) q = true ->
  exists pre b post, q = pre ++ b :: post /\
    Forall (fun x => tag x <> t) pre /\ tag b = t.
Proof.
  induction q as [| x q IH]; simpl; [discriminate |].
  destruct (Z.eqb_spec (tag x) t) as [E | E]; simpl.
  - intros _. exists [], x, q. repeat split; [constructor | exact E].
  - intros H. destruct (IH H) as (pre & b & post & -> & Hpre & Hb).
    exists (x :: pre), b, post. repeat split; [constructor; assumption | exact Hb].
Qed.

Lemma checkVictimCache_absent (c : Cache) (t : Z) :
  inVictim c t = false -> checkVictimCache c t = (false, c, []).
Proof.
  unfold inVictim, checkVictimCache. intros H.
  apply existsb_false_Forall in H.
  rewrite checkVictimLoop_absent.
  - rewrite with_victimCache_same. reflexivity.
  - eapply List.Forall_impl; [| exact H]. simpl. intros b Hb. apply Z.eqb_neq, Hb.
Qed.

Lemma checkVictimCache_present (c : Cache) (t : Z) :
  inVictim c t = true ->
  exists pre b post,
    victimCache c = pre ++ b :: post /\
    Forall (fun x => tag x <> t) pre /\ tag b = t /\
    checkVictimCache c t =
      (true, with_victimCache c (post ++ pre ++ [b]), [EvVictimHit]).
Proof.
  unfold inVictim, checkVictimCache. intros H.
  destruct (first_match_split _ _ H) as (pre & b & post & E & Hpre & Hb).
  exists pre, b, post. repeat split; try assumption.
  rewrite E, (checkVictimLoop_found pre post b t Hpre Hb). reflexivity.
Qed.

(** ** The three paths of an access *)

(** The three paths of [accessCache], after one unfolding. *)
Lemma accessCache_paths (fuel : nat) (c : Cache) (address : Z)
    (isWrite : bool) :
  let index := addrIndex c address in
  let t := addrTag c address in
  accessCache (S fuel) c address isWrite =
    if isAlreadyCached c index t then
      prefetchStep fuel address true
        (hitUpdate c index (predictWay c index t) isWrite)
        [EvHit index (predictWay c index t)]
    else if inVictim c t then
      Some (true, victimFill (snd (fst (checkVictimCache c t))) index isWrite,
            [EvVictimHit])
    else
      prefetchStep fuel address false
        (fst (missFill c index t isWrite)) (snd (missFill c index t isWrite)).
Proof.
  intros index t. simpl. unfold accessBody. fold index t.
  rewrite hit_test_isAlreadyCached.
  destruct (isAlreadyCached c index t) eqn:Hres.
  - unfold prefetchNextLine, prefetchStep. cbv zeta. clear Hres.
    destruct (isAlreadyCached _ _ _); [reflexivity |].
    destruct (accessCache fuel _ _ false) as [[[r c'] tr] |]; reflexivity.
  - destruct (inVictim c t) eqn:Hv.
    + destruct (checkVictimCache_present _ _ Hv) as (pre & b & post & _ & _ & _ & E).
      rewrite E. reflexivity.
    + rewrite (checkVictimCache_absent _ _ Hv).
      destruct (missFill c index t isWrite) as [c5 trm]. simpl.
      unfold prefetchNextLine, prefetchStep. cbv zeta. clear Hres.
      destruct (isAlreadyCached _ _ _); [rewrite app_nil_r; reflexivity |].
      destruct (accessCache fuel _ _ false) as [[[r c'] tr] |]; reflexivity.
Qed.

(** C4, as the code has it.  A store hit and a completed miss fill both end
    in the prefetch step: the next address is address + blockSize (32-bit);
    when its line is resident nothing more happens, otherwise [accessCache]
    is called for it as a read.  A hit in the victim buffer returns without
    any prefetch step. *)
Theorem prefetch_after_hit_or_fill (fuel : nat) (c : Cache) (address : Z)
    (isWrite : bool) :
  let index := addrIndex c address in
  let t := addrTag c address in
  accessCache (S fuel) c address isWrite =
    if isAlreadyCached c index t then
      prefetchStep fuel address true
        (hitUpdate c index (predictWay c index t) isWrite)
        [EvHit index (predictWay c index t)]
    else if inVictim c t then
      Some (true, victimFill (snd (fst (checkVictimCache c t))) index isWrite,
            [EvVictimHit])
    else
      prefetchStep fuel address false
        (fst (missFill c index t isWrite)) (snd (missFill c index t isWrite)).
Proof.
  intros index t. simpl. unfold accessBody. fold index t.
  rewrite hit_test_isAlreadyCached.
  destruct (isAlreadyCached c index t) eqn:Hres.
  - unfold prefetchNextLine, prefetchStep. cbv zeta. clear Hres.
    destruct (isAlreadyCached _ _ _); [reflexivity |].
    destruct (accessCache fuel _ _ false) as [[[r c'] tr] |]; reflexivity.
  - destruct (inVictim c t) eqn:Hv.
    + destruct (checkVictimCache_present _ _ Hv) as (pre & b & post & _ & _ & _ & E).
      rewrite E. reflexivity.
    + rewrite (checkVictimCache_absent _ _ Hv).
      destruct (missFill c index t isWrite) as [c5 trm]. simpl.
      unfold prefetchNextLine, prefetchStep. cbv zeta. clear Hres.
      destruct (isAlreadyCached _ _ _); [rewrite app_nil_r; reflexivity |].
      destruct (accessCache fuel _ _ false) as [[[r c'] tr] |]; reflexivity.
Qed.

(** Counterexample to C4.  A cache of two sets with blocks of 2^28 bytes
    and four victim entries, after one read of address 0.  The read of
    address 2^28 is a hit in the victim buffer; the line after it, at
    2^29, is resident neither before nor after, and yet no access is made
    for it: the call returns with fuel for one call only and prints
    nothing but the victim hit. *)
Lemma victim_hit_skips_prefetch :
  exists c0 c1 c2 out,
    Cache_new (2 ^ 29) (2 ^ 28) 1 4 = Some c0 /\
    accessAll 20 c0 [(0, false)] = Some (c1, out) /\
    accessCache 1 c1 (2 ^ 28) false = Some (true, c2, [EvVictimHit]) /\
    isAlreadyCached c1 (addrIndex c1 (wrap32 (2 ^ 28 + blockSize c1)))
                       (addrTag c1 (wrap32 (2 ^ 28 + blockSize c1))) = false /\
    isAlreadyCached c2 (addrIndex c2 (wrap32 (2 ^ 28 + blockSize c2)))
                       (addrTag c2 (wrap32 (2 ^ 28 + blockSize c2))) = false.
Proof.
  do 4 eexists.
  split; [vm_compute; reflexivity |].
  split; [vm_compute; reflexivity |].
  split; [vm_compute; reflexivity |].
  split; vm_compute; reflexivity.
Qed.

(** ** More fuel changes no result *)

Lemma prefetchNextLine_mono (f g : Cache -> Z -> bool -> option result) :
  (forall c a w r, f c a w = Some r -> g c a w = Some r) ->
  forall c a r, prefetchNextLine f c a = Some r -> prefetchNextLine g c a = Some r.
Proof.
  intros Hfg c a r. unfold prefetchNextLine.
  destruct (isAlreadyCached _ _ _); [auto |].
  destruct (f c _ false) as [[[b c'] tr] |] eqn:E; [| discriminate].
  rewrite (Hfg _ _ _ _ E). auto.
Qed.

Lemma accessBody_mono (f g : Cache -> Z -> bool -> option result) :
  (forall c a w r, f c a w = Some r -> g c a w = Some r) ->
  forall c a w r, accessBody f c a w = Some r -> accessBody g c a w = Some r.
Proof.
  intros Hfg c a w r. unfold accessBody.
  destruct (valid _ && (tag _ =? _)).
  - destruct (prefetchNextLine f _ a) as [[c3 tr] |] eqn:E; [| discriminate].
    rewrite (prefetchNextLine_mono f g Hfg _ _ _ E). auto.
  - destruct (checkVictimCache c _) as [[found c1] trv].
    destruct found; [auto |].
    destruct (missFill c1 _ _ w) as [c5 trm].
    destruct (prefetchNextLine f _ a) as [[c6 tr] |] eqn:E; [| discriminate].
    rewrite (prefetchNextLine_mono f g Hfg _ _ _ E). auto.
Qed.

Lemma accessCache_fuel_S (fuel : nat) :
  forall c a w r,
    accessCache fuel c a w = Some r -> accessCache (S fuel) c a w = Some r.
Proof.
  induction fuel as [| fuel IH]; intros c a w r; [discriminate |].
  intros H. change (accessBody (accessCache (S fuel)) c a w = Some r).
  exact (accessBody_mono _ _ IH c a w r H).
Qed.

Lemma accessCache_fuel_le (fuel fuel' : nat) (c : Cache) (a : Z) (w : bool)
    (r : result) :
  (fuel <= fuel')%nat ->
  accessCache fuel c a w = Some r -> accessCache fuel' c a w = Some r.
Proof.
  induction 1 as [| m _ IH]; [auto |].
  intros H. apply accessCache_fuel_S, IH, H.
Qed.

(** Two runs that both come to an end give the same result. *)
Lemma accessCache_deterministic (f1 f2 : nat) (c : Cache) (a : Z) (w : bool)
    (r1 r2 : result) :
  accessCache f1 c a w = Some r1 -> accessCache f2 c a w = Some r2 -> r1 = r2.
Proof.
  intros H1 H2.
  apply (accessCache_fuel_le f1 (Nat.max f1 f2)) in H1; [| lia].
  apply (accessCache_fuel_le f2 (Nat.max f1 f2)) in H2; [| lia].
  congruence.
Qed.

(** ** The victim-hit path takes the wrong block *)

(** After a successful scan for [t] the queue reads [post ++ pre ++ [b]],
    [b] being the block that matched.  [victimFill] copies the front of that
    queue into the set and pops it: unless [b] was alone in the queue, the
    block that leaves is the one that followed [b], and [b] stays. *)
Lemma victimFill_after_scan (c : Cache) (t index : Z) (isWrite : bool)
    (pre post : list CacheBlock) (b : CacheBlock) :
  victimCache c = pre ++ b :: post ->
  Forall (fun x => tag x <> t) pre -> tag b = t ->
  let c1 := snd (fst (checkVictimCache c t)) in
  victimCache c1 = post ++ pre ++ [b] /\
  victimCache (victimFill c1 index isWrite) = tail (post ++ pre ++ [b]) /\
  ((getPseudoLRU c index < length (getRow c index))%nat ->
   getBlock (victimFill c1 index isWrite) index (getPseudoLRU c index) =
   set_dirty (front (post ++ pre ++ [b])) isWrite).
Proof.
  intros E Hpre Hb c1. subst c1. unfold checkVictimCache.
  rewrite E, (checkVictimLoop_found pre post b t Hpre Hb). simpl.
  split; [reflexivity |]. split; [reflexivity |].
  intros Hw. unfold victimFill, insertBlockToCache. simpl.
  unfold getBlock at 1, getRow at 1. simpl.
  unfold getPseudoLRU, getCounters in *. simpl in *.
  unfold getRow in Hw.
  rewrite !list_lookup_alter_eq.
  destruct (sets c !! Z.to_nat index) as [row |] eqn:Er; simpl in *; [| lia].
  rewrite list_lookup_insert_eq by (rewrite length_insert; exact Hw).
  unfold getBlock, getRow. simpl. rewrite list_lookup_alter_eq, Er. simpl.
  rewrite list_lookup_insert_eq by exact Hw. reflexivity.
Qed.

(** ** Write-back on the two fill paths *)

(** The miss path prints the two write-back lines, once each, when the
    line it is about to replace is valid and dirty. *)
Lemma missFill_writes_back (c : Cache) (index t : Z) (isWrite : bool) :
  valid (getBlock c index (getPseudoLRU c index)) = true ->
  dirty (getBlock c index (getPseudoLRU c index)) = true ->
  snd (missFill c index t isWrite) =
  [EvMiss; EvWriteBackDirty;
   EvWriteBack (tag (getBlock c index (getPseudoLRU c index)))].
Proof.
  intros Hv Hd. unfold missFill. rewrite Hv, Hd. reflexivity.
Qed.

(** The victim-hit path prints the victim hit and nothing else, whatever
    line it replaces. *)
Lemma victim_hit_output (fuel : nat) (c : Cache) (address : Z) (isWrite : bool) :
  isAlreadyCached c (addrIndex c address) (addrTag c address) = false ->
  inVictim c (addrTag c address) = true ->
  exists c', accessCache (S fuel) c address isWrite = Some (true, c', [EvVictimHit]).
Proof.
  intros Hres Hv. rewrite accessCache_paths, Hres, Hv. eexists. reflexivity.
Qed.

(** ** Tags from 2^30 on are never found *)

Lemma inField_emptyBlock : inField emptyBlock.
Proof. unfold inField. simpl. lia. Qed.

Lemma inField_set_dirty (b : CacheBlock) (d : bool) :
  inField b -> inField (set_dirty b d).
Proof. intros H. exact H. Qed.

Lemma inField_getBlock (c : Cache) (i : Z) (w : nat) :
  tagsInField c -> inField (getBlock c i w).
Proof.
  intros [Hs _]. unfold getBlock, getRow.
  destruct (sets c !! Z.to_nat i) as [row |] eqn:E; simpl;
    [| apply inField_emptyBlock].
  destruct (row !! w) as [b |] eqn:Eb; simpl; [| apply inField_emptyBlock].
  pose proof (proj1 (Forall_lookup _ _) Hs _ _ E) as Hrow.
  exact (proj1 (Forall_lookup _ _) Hrow _ _ Eb).
Qed.

Lemma inField_front (q : list CacheBlock) : Forall inField q -> inField (front q).
Proof.
  destruct q as [| b q]; [intros _; apply inField_emptyBlock |].
  intros H. inversion H; assumption.
Qed.

Lemma tagsInField_setBlock (c : Cache) (i : Z) (w : nat) (b : CacheBlock) :
  tagsInField c -> inField b -> tagsInField (setBlock c i w b).
Proof.
  intros [Hs Hq] Hb. split; [| exact Hq]. simpl.
  apply Forall_alter; [exact Hs |].
  intros row _ Hrow. apply Forall_insert; assumption.
Qed.

Lemma tagsInField_updatePseudoLRU (c : Cache) (i : Z) (w : nat) :
  tagsInField c -> tagsInField (updatePseudoLRU c i w).
Proof. intros H. exact H. Qed.

Lemma tagsInField_with_victimCache (c : Cache) (q : list CacheBlock) :
  tagsInField c -> Forall inField q -> tagsInField (with_victimCache c q).
Proof. intros [Hs _] Hq. split; assumption. Qed.

Lemma checkVictimLoop_inField (n : nat) (t : Z) :
  forall q, Forall inField q ->
            Forall inField (snd (fst (checkVictimLoop n t q))).
Proof.
  induction n as [| n IH]; intros q Hq; simpl; [exact Hq |].
  assert (Hpush : Forall inField (push (pop q) (front q))).
  { unfold push, pop. apply Forall_app_2; [apply Forall_tail, Hq |].
    constructor; [apply inField_front, Hq | constructor]. }
  destruct (tag (front q) =? t); [exact Hpush | apply IH, Hpush].
Qed.

Lemma tagsInField_checkVictimCache (c : Cache) (t : Z) :
  tagsInField c -> tagsInField (snd (fst (checkVictimCache c t))).
Proof.
  intros H. unfold checkVictimCache.
  pose proof (checkVictimLoop_inField (length (victimCache c)) t _ (proj2 H)) as Hq.
  destruct (checkVictimLoop _ _ _) as [[found q] tr]. simpl in *.
  apply tagsInField_with_victimCache; assumption.
Qed.

Lemma tagsInField_hitUpdate (c : Cache) (i : Z) (w : nat) (isWrite : bool) :
  tagsInField c -> tagsInField (hitUpdate c i w isWrite).
Proof.
  intros H. unfold hitUpdate. apply tagsInField_updatePseudoLRU.
  destruct isWrite; [| exact H].
  apply tagsInField_setBlock; [exact H |].
  apply inField_set_dirty, inField_getBlock, H.
Qed.

Lemma tagsInField_victimFill (c : Cache) (i : Z) (isWrite : bool) :
  tagsInField c -> tagsInField (victimFill c i isWrite).
Proof.
  intros H. unfold victimFill, insertBlockToCache.
  apply tagsInField_with_victimCache.
  - apply tagsInField_updatePseudoLRU.
    assert (H1 : tagsInField (setBlock c i (getPseudoLRU c i) (front (victimCache c))))
      by (apply tagsInField_setBlock; [exact H | apply inField_front, H]).
    apply tagsInField_setBlock; [exact H1 |].
    apply inField_set_dirty, inField_getBlock, H1.
  - simpl. unfold pop. apply Forall_tail, H.
Qed.

Lemma tagsInField_addToVictimCache (c : Cache) (b : CacheBlock) :
  tagsInField c -> inField b -> tagsInField (addToVictimCache c b).
Proof.
  intros H Hb. unfold addToVictimCache. apply tagsInField_with_victimCache; [exact H |].
  unfold push. apply Forall_app_2; [| constructor; [exact Hb | constructor]].
  destruct (_ >=? _); [apply Forall_tail |]; apply H.
Qed.

Lemma tagsInField_missFill (c : Cache) (i t : Z) (isWrite : bool) :
  tagsInField c -> tagsInField (fst (missFill c i t isWrite)).
Proof.
  intros H. unfold missFill, writeBack.
  set (w := getPseudoLRU c i).
  assert (H2 : tagsInField (setBlock c i w (set_dirty (getBlock c i w) false))).
  { apply tagsInField_setBlock; [exact H |].
    apply inField_set_dirty, inField_getBlock, H. }
  assert (Hnew : forall d, inField (mkBlock true isWrite (trunc30 t) d)).
  { intros d. unfold inField. simpl. apply trunc30_range. }
  destruct (valid _ && dirty _); simpl;
    apply tagsInField_updatePseudoLRU, tagsInField_setBlock; try apply Hnew;
    destruct (valid _); try assumption;
    apply tagsInField_addToVictimCache; try assumption;
    apply inField_getBlock; assumption.
Qed.

Lemma tagsInField_new (size block assoc victimSize : Z) (c : Cache) :
  Cache_new size block assoc victimSize = Some c -> tagsInField c.
Proof.
  intros H. apply Cache_new_inv in H as (_ & _ & _ & _ & ->).
  split; simpl; [| constructor].
  apply Forall_replicate, Forall_replicate, inField_emptyBlock.
Qed.

Lemma tagsInField_visited (c0 c : Cache) :
  tagsInField c0 -> visited c0 c -> tagsInField c.
Proof.
  intros H0. induction 1 as [| c a w _ IH _ | c a w _ IH _ _ | c a w _ IH _ _].
  - exact H0.
  - apply tagsInField_hitUpdate, IH.
  - apply tagsInField_victimFill, tagsInField_checkVictimCache, IH.
  - apply tagsInField_missFill, IH.
Qed.

Lemma high_tag_not_found (c : Cache) (i t : Z) :
  tagsInField c -> 2 ^ 30 <= t ->
  isAlreadyCached c i t = false /\ inVictim c t = false.
Proof.
  intros [Hs Hq] Ht. split.
  - unfold isAlreadyCached, getRow. apply existsb_false_Forall.
    destruct (sets c !! Z.to_nat i) as [row |] eqn:E; simpl; [| constructor].
    pose proof (proj1 (Forall_lookup _ _) Hs _ _ E) as Hrow.
    eapply List.Forall_impl; [| exact Hrow]. simpl. intros b Hb.
    unfold inField in Hb. apply andb_false_iff. right. apply Z.eqb_neq. lia.
  - unfold inVictim. apply existsb_false_Forall.
    eapply List.Forall_impl; [| exact Hq]. simpl. intros b Hb.
    unfold inField in Hb. apply Z.eqb_neq. lia.
Qed.

(** An access to an address whose tag does not fit the 30-bit field is a
    miss whenever it returns, in every state of every cache. *)
Lemma high_tag_access_misses
    (size block assoc victimSize : Z) (c0 c c' : Cache) (fuel : nat)
    (address : Z) (isWrite r : bool) (tr : list Event) :
  Cache_new size block assoc victimSize = Some c0 ->
  visited c0 c ->
  2 ^ 30 <= addrTag c address ->
  accessCache fuel c address isWrite = Some (r, c', tr) ->
  r = false.
Proof.
  intros Hnew Hv Ht. destruct fuel as [| fuel]; [discriminate |].
  pose proof (tagsInField_visited _ _ (tagsInField_new _ _ _ _ _ Hnew) Hv) as Hf.
  destruct (high_tag_not_found c (addrIndex c address) _ Hf Ht) as [E1 E2].
  rewrite accessCache_paths, E1, E2. unfold prefetchStep. clear E1 E2.
  destruct (isAlreadyCached _ _ _); [intros [= <- _ _]; reflexivity |].
  destruct (accessCache fuel _ _ false) as [[[r2 c2] tr2] |];
    [intros [= <- _ _]; reflexivity | discriminate].
Qed.

(** ** Concrete runs *)

(** C1.  A cache of two sets, blocks of 2^28 bytes, four victim entries,
    after one read of address 0; the victim queue then holds tags 2^29,
    2^29, 0.  Address 2^28 has index 1 and tag 0 and is not in its set, so
    the read of it is a victim hit on the third entry.  The block that goes
    into set 1 and leaves the queue is the first entry, with tag 2^29; the
    entry that matched is still in the queue afterwards. *)
Theorem victim_hit_moves_wrong_entry :
  exists c0 c1 c2 out,
    Cache_new (2 ^ 29) (2 ^ 28) 1 4 = Some c0 /\
    accessAll 20 c0 [(0, false)] = Some (c1, out) /\
    addrIndex c1 (2 ^ 28) = 1 /\ addrTag c1 (2 ^ 28) = 0 /\
    isAlreadyCached c1 1 0 = false /\
    victimCache c1 =
      [mkBlock true false (2 ^ 29) 0; mkBlock true false (2 ^ 29) 0;
       mkBlock true false 0 0] /\
    accessCache 1 c1 (2 ^ 28) false = Some (true, c2, [EvVictimHit]) /\
    getBlock c2 1 0 = mkBlock true false (2 ^ 29) 0 /\
    victimCache c2 = [mkBlock true false (2 ^ 29) 0; mkBlock true false 0 0].
Proof.
  do 4 eexists.
  split; [vm_compute; reflexivity |].
  split; [vm_compute; reflexivity |].
  repeat split; vm_compute; reflexivity.
Qed.

(** C2.  A cache of two sets, blocks of 2^28 bytes, two victim entries.
    After a read of address 0 and a write of address 2^29, way 0 of set 0
    holds the line of 2^29, valid and dirty, and is the way to be replaced.
    The read of address 0 that follows is a victim hit: the block from the
    queue overwrites that line.  Nothing is printed but the victim hit, no
    write-back, and no dirty block is left anywhere in the cache. *)
Theorem victim_hit_drops_dirty_line :
  exists c0 c2 c3 out,
    Cache_new (2 ^ 29) (2 ^ 28) 1 2 = Some c0 /\
    accessAll 20 c0 [(0, false); (2 ^ 29, true)] = Some (c2, out) /\
    addrIndex c2 0 = 0 /\ getPseudoLRU c2 0 = 0%nat /\
    getBlock c2 0 0 = mkBlock true true (2 ^ 29) 0 /\
    accessCache 1 c2 0 false = Some (true, c3, [EvVictimHit]) /\
    getBlock c3 0 0 = mkBlock true false 0 0 /\
    forallb (forallb (fun b => negb (dirty b))) (sets c3) = true /\
    forallb (fun b => negb (dirty b)) (victimCache c3) = true.
Proof.
  do 4 eexists.
  split; [vm_compute; reflexivity |].
  split; [vm_compute; reflexivity |].
  repeat split; vm_compute; reflexivity.
Qed.

(** C6.  A cache of two sets with blocks of 2^29 bytes, freshly built.  The
    tag of address 7 * 2^29 is 3 * 2^30; the 30-bit field stores 0 for it.
    The first read fills way 0 of set 1 and ends after one prefetch, which
    touches set 0 only; the line is still in its slot.  The read of the same
    address that follows is a miss again, whatever the fuel. *)
Theorem second_access_misses_above_2_30 :
  exists c0 c1 c2 tr1 tr2,
    Cache_new (2 ^ 30) (2 ^ 29) 1 1 = Some c0 /\
    accessCache 3 c0 (7 * 2 ^ 29) false = Some (false, c1, tr1) /\
    addrIndex c1 (7 * 2 ^ 29) = 1 /\ addrTag c1 (7 * 2 ^ 29) = 3 * 2 ^ 30 /\
    getBlock c1 1 0 = mkBlock true false (trunc30 (3 * 2 ^ 30)) 0 /\
    tag (getBlock c1 1 0) = 0 /\
    accessCache 3 c1 (7 * 2 ^ 29) false = Some (false, c2, tr2) /\
    forall fuel r c' tr,
      accessCache fuel c1 (7 * 2 ^ 29) false = Some (r, c', tr) -> r = false.
Proof.
  do 5 eexists.
  split; [vm_compute; reflexivity |].
  split; [vm_compute; reflexivity |].
  split; [vm_compute; reflexivity |].
  split; [vm_compute; reflexivity |].
  split; [vm_compute; reflexivity |].
  split; [vm_compute; reflexivity |].
  split; [vm_compute; reflexivity |].
  intros fuel r c' tr H.
  match type of H with
  | accessCache _ ?c ?a ?w = _ =>
      eassert (E : accessCache 3 c a w = Some _) by (vm_compute; reflexivity)
  end.
  pose proof (accessCache_deterministic _ _ _ _ _ _ _ H E) as D.
  congruence.
Qed.

(** C8.  A cache of two sets, blocks of 2^28 bytes, eleven victim entries.
    B = 3 * 2^28 (set 1) and A = 2 * 2^28 (set 0) share the tag 2^29.  The
    read of B fills set 1; the prefetch cascade that follows pushes that
    line into the victim buffer when it fills set 1 again two lines later,
    runs up to the end of the address space and ends with a victim hit at
    address 0.  A second read, of 9 * 2^28, leaves the line of B at the
    front of the victim queue.  Address A has not been accessed by any call
    or prefetch so far and set 0 does not hold its tag; the read of A is a
    hit, served from the victim buffer. *)
Theorem victim_hit_across_sets :
  exists (A B : Z) (c0 c c' : Cache) (out : list (bool * list Event)),
    A <> B /\
    Cache_new (2 ^ 29) (2 ^ 28) 1 11 = Some c0 /\
    accessAll 20 c0 [(B, false); (9 * 2 ^ 28, false)] = Some (c, out) /\
    addrTag c A = addrTag c B /\
    addrIndex c A <> addrIndex c B /\
    existsb (Z.eqb A)
      (accessedAddresses [(B, false); (9 * 2 ^ 28, false)] out) = false /\
    head (victimCache c) = Some (mkBlock true false (trunc30 (addrTag c B)) 0) /\
    isAlreadyCached c (addrIndex c A) (addrTag c A) = false /\
    accessCache 1 c A false = Some (true, c', [EvVictimHit]).
Proof.
  exists (2 * 2 ^ 28), (3 * 2 ^ 28). do 4 eexists.
  split; [intros E; vm_compute in E; discriminate E |].
  split; [vm_compute; reflexivity |].
  split; [vm_compute; reflexivity |].
  split; [vm_compute; reflexivity |].
  split; [intros E; vm_compute in E; discriminate E |].
  repeat split; vm_compute; reflexivity.
Qed.

(** ** Only way 0 of a set is ever filled *)

Lemma findZero_updateRow_0 (row : list Z) : findZero (updateRow 0 0 row) = 0%nat.
Proof. destruct row; reflexivity. Qed.

Lemma tail_insert_0 {A : Type} (row : list A) (b : A) :
  tail (<[0%nat := b]> row) = tail row.
Proof. destruct row; reflexivity. Qed.

Lemma way0Only_setBlock (c : Cache) (index : Z) (b : CacheBlock) :
  way0Only c -> way0Only (setBlock c index 0 b).
Proof.
  intros [Hs Hl]. split; [| exact Hl]. simpl.
  apply Forall_alter; [exact Hs |].
  intros row _ Hrow. rewrite tail_insert_0. exact Hrow.
Qed.

Lemma way0Only_updatePseudoLRU (c : Cache) (index : Z) :
  way0Only c -> way0Only (updatePseudoLRU c index 0).
Proof.
  intros [Hs Hl]. split; [exact Hs |]. simpl.
  apply Forall_alter; [exact Hl |].
  intros row _ _. apply findZero_updateRow_0.
Qed.

Lemma way0Only_with_victimCache (c : Cache) (q : list CacheBlock) :
  way0Only c -> way0Only (with_victimCache c q).
Proof. intros H. exact H. Qed.

Lemma way0Only_getPseudoLRU (c : Cache) (index : Z) :
  way0Only c -> getPseudoLRU c index = 0%nat.
Proof.
  intros [_ Hl]. unfold getPseudoLRU, getCounters.
  destruct (pseudoLRU c !! Z.to_nat index) as [row |] eqn:E; [| reflexivity].
  simpl. exact (proj1 (Forall_lookup _ _) Hl _ _ E).
Qed.

Lemma way0Only_predictWay (c : Cache) (index t : Z) :
  way0Only c -> predictWay c index t = 0%nat.
Proof.
  intros [Hs _]. unfold predictWay, getRow.
  destruct (sets c !! Z.to_nat index) as [row |] eqn:E; [| reflexivity]. simpl.
  destruct (scanWays row t) as [w |] eqn:Ew; [| reflexivity]. simpl.
  destruct (scanWays_Some _ _ _ Ew) as (b & Hb & Hc).
  destruct w as [| w]; [reflexivity |].
  pose proof (proj1 (Forall_lookup _ _) Hs _ _ E) as Hrow.
  destruct row as [| b0 row]; [discriminate |]. simpl in Hrow, Hb.
  rewrite (proj1 (Forall_lookup _ _) Hrow _ _ Hb) in Hc. discriminate.
Qed.

Lemma way0Only_hitUpdate (c : Cache) (index : Z) (isWrite : bool) :
  way0Only c -> way0Only (hitUpdate c index 0 isWrite).
Proof.
  intros H. unfold hitUpdate. apply way0Only_updatePseudoLRU.
  destruct isWrite; [apply way0Only_setBlock |]; exact H.
Qed.

Lemma way0Only_victimFill (c : Cache) (index : Z) (isWrite : bool) :
  way0Only c -> way0Only (victimFill c index isWrite).
Proof.
  intros H. unfold victimFill, insertBlockToCache.
  rewrite (way0Only_getPseudoLRU _ _ H).
  apply way0Only_with_victimCache, way0Only_updatePseudoLRU.
  apply way0Only_setBlock, way0Only_setBlock, H.
Qed.

Lemma way0Only_missFill (c : Cache) (index t : Z) (isWrite : bool) :
  way0Only c -> way0Only (fst (missFill c index t isWrite)).
Proof.
  intros H. unfold missFill, writeBack, addToVictimCache.
  rewrite (way0Only_getPseudoLRU _ _ H).
  destruct (valid _ && dirty _); simpl;
    apply way0Only_updatePseudoLRU, way0Only_setBlock;
    destruct (valid _); try apply way0Only_with_victimCache;
    try apply way0Only_setBlock; exact H.
Qed.

Lemma way0Only_checkVictimCache (c : Cache) (t : Z) :
  way0Only c -> way0Only (snd (fst (checkVictimCache c t))).
Proof.
  intros H. unfold checkVictimCache.
  destruct (checkVictimLoop _ _ _) as [[found q] tr]. exact H.
Qed.

Lemma way0Only_new (size block assoc victimSize : Z) (c : Cache) :
  Cache_new size block assoc victimSize = Some c -> way0Only c.
Proof.
  intros H. apply Cache_new_inv in H as (_ & _ & _ & _ & ->).
  split; simpl; apply Forall_replicate.
  - destruct (Z.to_nat assoc); simpl; [constructor |].
    apply Forall_replicate. reflexivity.
  - destruct (Z.to_nat assoc); reflexivity.
Qed.

Lemma way0Only_tagsUnique (c : Cache) : way0Only c -> tagsUnique c.
Proof.
  intros [Hs _] i j k row bj bk Hrow Hj Hk Hjk Vj Vk.
  pose proof (proj1 (Forall_lookup _ _) Hs _ _ Hrow) as Ht.
  destruct row as [| b0 row]; [discriminate |]. simpl in Ht.
  destruct j as [| j], k as [| k]; try lia; simpl in Hj, Hk.
  - rewrite (proj1 (Forall_lookup _ _) Ht _ _ Hk) in Vk. discriminate.
  - rewrite (proj1 (Forall_lookup _ _) Ht _ _ Hj) in Vj. discriminate.
  - rewrite (proj1 (Forall_lookup _ _) Ht _ _ Hk) in Vk. discriminate.
Qed.

Lemma visited_accessCache (c0 : Cache) (fuel : nat) :
  forall c a w r c' tr,
    visited c0 c -> accessCache fuel c a w = Some (r, c', tr) -> visited c0 c'.
Proof.
  induction fuel as [| fuel IH]; intros c a w r c' tr Hv; [discriminate |].
  assert (Hstep : forall r1 c1 tr1,
             visited c0 c1 ->
             prefetchStep fuel a r1 c1 tr1 = Some (r, c', tr) -> visited c0 c').
  { intros r1 c1 tr1 H1. unfold prefetchStep.
    destruct (isAlreadyCached _ _ _); [intros [= _ <- _]; exact H1 |].
    destruct (accessCache fuel c1 _ false) as [[[r2 c2] tr2] |] eqn:E;
      [| discriminate].
    intros [= _ <- _]. exact (IH _ _ _ _ _ _ H1 E). }
  rewrite accessCache_paths.
  destruct (isAlreadyCached c _ _) eqn:Hres.
  - apply Hstep. apply visit_hit; assumption.
  - destruct (inVictim c _) eqn:Hin.
    + intros [= _ <- _]. apply visit_victim; assumption.
    + apply Hstep. apply visit_miss; assumption.
Qed.

Lemma reachable_visited (c0 c : Cache) : reachable c0 c -> visited c0 c.
Proof.
  induction 1 as [| c1 fuel a w r c2 tr _ IH Hacc].
  - apply visit_init.
  - exact (visited_accessCache _ _ _ _ _ _ _ _ IH Hacc).
Qed.

Lemma way0Only_visited (c0 c : Cache) :
  way0Only c0 -> visited c0 c -> way0Only c.
Proof.
  intros H0. induction 1 as [| c a w _ IH _ | c a w _ IH _ _ | c a w _ IH _ _].
  - exact H0.
  - rewrite (way0Only_predictWay _ _ _ IH). apply way0Only_hitUpdate, IH.
  - apply way0Only_victimFill, way0Only_checkVictimCache, IH.
  - apply way0Only_missFill, IH.
Qed.

(** Tag uniqueness holds in every state a cache passes through, the states
    inside a prefetch cascade included. *)
Lemma tags_unique_visited (size block assoc victimSize : Z) (c0 c : Cache) :
  Cache_new size block assoc victimSize = Some c0 ->
  visited c0 c -> tagsUnique c.
Proof.
  intros Hnew Hv. apply way0Only_tagsUnique.
  exact (way0Only_visited _ _ (way0Only_new _ _ _ _ _ Hnew) Hv).
Qed.

(** C5.  In every state that calls of [accessCache] lead to from a freshly
    constructed cache, no two valid ways of one set carry the same tag. *)
Theorem tags_unique_in_reachable_states
    (size block assoc victimSize : Z) (c0 c : Cache) :
  Cache_new size block assoc victimSize = Some c0 ->
  reachable c0 c ->
  tagsUnique c.
Proof.
  intros Hnew Hreach. apply way0Only_tagsUnique.
  apply (way0Only_visited c0); [exact (way0Only_new _ _ _ _ _ Hnew) |].
  induction Hreach as [| c1 fuel a w r c2 tr _ IH Hacc].
  - apply visit_init.
  - exact (visited_accessCache _ _ _ _ _ _ _ _ IH Hacc).
Qed.

Lemma tags_unique_witness :
  exists c0 c,
    Cache_new (2 ^ 30) (2 ^ 29) 2 2 = Some c0 /\
    reachable c0 c /\
    getBlock c 0 0 = mkBlock true false (2 ^ 29) 0 /\
    tagsUnique c.
Proof.
  do 2 eexists.
  split; [vm_compute; reflexivity |].
  match goal with
  | |- reachable ?c0 ?c /\ _ =>
      assert (R : reachable c0 c)
        by (eapply (reach_access _ _ 12%nat 0 true);
            [apply reach_init | vm_compute; reflexivity])
  end.
  split; [exact R |].
  split; [vm_compute; reflexivity |].
  refine (tags_unique_in_reachable_states (2 ^ 30) (2 ^ 29) 2 2 _ _ _ R).
  vm_compute. reflexivity.
Defined.

(** ** Every index stays in range *)

Lemma map_length_alter {A : Type} (f : list A -> list A) (l : list (list A)) (i : nat) :
  (forall row, length (f row) = length row) ->
  map length (alter f i l) = map length l.
Proof.
  intros Hf. revert i. induction l as [| row l IH]; intros i; [reflexivity |].
  destruct i as [| i]; simpl; [rewrite Hf; reflexivity |].
  f_equal. apply IH.
Qed.

Lemma sameShape_refl (c : Cache) : sameShape c c.
Proof. repeat split. Qed.

Lemma sameShape_setBlock (c0 c : Cache) (i : Z) (w : nat) (b : CacheBlock) :
  sameShape c0 c -> sameShape c0 (setBlock c i w b).
Proof.
  intros (Hs & H). split; [| exact H]. simpl.
  rewrite map_length_alter; [exact Hs |].
  intros row. apply length_insert.
Qed.

Lemma sameShape_other (c0 c c' : Cache) :
  sameShape c0 c -> sets c' = sets c -> blockSize c' = blockSize c ->
  setMask c' = setMask c -> tagMask c' = tagMask c ->
  numSets c' = numSets c -> ways c' = ways c -> sameShape c0 c'.
Proof.
  intros (H1 & H2 & H3 & H4 & H5 & H6) E1 E2 E3 E4 E5 E6.
  repeat split; congruence.
Qed.

Lemma sameShape_updatePseudoLRU (c0 c : Cache) (i : Z) (w : nat) :
  sameShape c0 c -> sameShape c0 (updatePseudoLRU c i w).
Proof. intros H. exact H. Qed.

Lemma sameShape_with_victimCache (c0 c : Cache) (q : list CacheBlock) :
  sameShape c0 c -> sameShape c0 (with_victimCache c q).
Proof. intros H. exact H. Qed.

Lemma sameShape_hitUpdate (c0 c : Cache) (i : Z) (w : nat) (isWrite : bool) :
  sameShape c0 c -> sameShape c0 (hitUpdate c i w isWrite).
Proof.
  intros H. unfold hitUpdate. apply sameShape_updatePseudoLRU.
  destruct isWrite; [apply sameShape_setBlock |]; exact H.
Qed.

Lemma sameShape_checkVictimCache (c0 c : Cache) (t : Z) :
  sameShape c0 c -> sameShape c0 (snd (fst (checkVictimCache c t))).
Proof.
  intros H. unfold checkVictimCache.
  destruct (checkVictimLoop _ _ _) as [[found q] tr]. exact H.
Qed.

Lemma sameShape_victimFill (c0 c : Cache) (i : Z) (isWrite : bool) :
  sameShape c0 c -> sameShape c0 (victimFill c i isWrite).
Proof.
  intros H. unfold victimFill, insertBlockToCache.
  apply sameShape_with_victimCache, sameShape_updatePseudoLRU.
  apply sameShape_setBlock, sameShape_setBlock, H.
Qed.

Lemma sameShape_missFill (c0 c : Cache) (i t : Z) (isWrite : bool) :
  sameShape c0 c -> sameShape c0 (fst (missFill c i t isWrite)).
Proof.
  intros H. unfold missFill, writeBack, addToVictimCache.
  destruct (valid _ && dirty _); simpl;
    apply sameShape_updatePseudoLRU, sameShape_setBlock;
    destruct (valid _); try apply sameShape_with_victimCache;
    try apply sameShape_setBlock; exact H.
Qed.

Lemma sameShape_visited (c0 c : Cache) : visited c0 c -> sameShape c0 c.
Proof.
  induction 1 as [| c a w _ IH _ | c a w _ IH _ _ | c a w _ IH _ _].
  - apply sameShape_refl.
  - apply sameShape_hitUpdate, IH.
  - apply sameShape_victimFill, sameShape_checkVictimCache, IH.
  - apply sameShape_missFill, IH.
Qed.

Lemma addrIndex_in_range (size block assoc victimSize : Z) (c : Cache) (a : Z) :
  Cache_new size block assoc victimSize = Some c ->
  0 <= addrIndex c a < numSets c.
Proof.
  intros Hnew. pose proof (Cache_new_geometry _ _ _ _ _ Hnew) as G.
  rewrite (addrIndex_arith _ _ _ a G).
  pose proof (Cache_new_inv _ _ _ _ _ Hnew) as (_ & _ & Hn & _ & Ec).
  assert (EN : numSets c = Z.quot (Z.quot size block) assoc)
    by (rewrite Ec; reflexivity).
  rewrite <- EN in Hn.
  pose proof (ctz_pow2_le _ Hn). pose proof (ctz_nonneg (numSets c)).
  assert (0 < 2 ^ ctz (numSets c)) by (apply Z.pow_pos_nonneg; lia).
  pose proof (Z.mod_pos_bound (a / 2 ^ ctz (blockSize c)) (2 ^ ctz (numSets c))).
  lia.
Qed.

(** No call on a constructed cache indexes a vector out of range: the set
    exists, and the way [predictWay] returns and the way [getPseudoLRU]
    returns are ways of it. *)
Lemma visited_in_range (size block assoc victimSize : Z) (c0 c : Cache) (a : Z) :
  Cache_new size block assoc victimSize = Some c0 ->
  visited c0 c ->
  0 <= addrIndex c a /\
  (Z.to_nat (addrIndex c a) < length (sets c))%nat /\
  (predictWay c (addrIndex c a) (addrTag c a)
   < length (getRow c (addrIndex c a)))%nat /\
  (getPseudoLRU c (addrIndex c a) < length (getRow c (addrIndex c a)))%nat.
Proof.
  intros Hnew Hv.
  pose proof (sameShape_visited _ _ Hv) as (Hs & HB & HS & _).
  pose proof (way0Only_visited _ _ (way0Only_new _ _ _ _ _ Hnew) Hv) as Hw.
  assert (Ei : addrIndex c a = addrIndex c0 a)
    by (unfold addrIndex; rewrite HB, HS; reflexivity).
  pose proof (addrIndex_in_range _ _ _ _ _ a Hnew) as Hi. rewrite <- Ei in Hi.
  pose proof (Cache_new_inv _ _ _ _ _ Hnew) as (_ & Ha & Hn & _ & Ec).
  assert (Hlen : map length (sets c)
                 = replicate (Z.to_nat (numSets c0)) (Z.to_nat assoc)).
  { rewrite Hs, Ec. simpl. clear.
    induction (Z.to_nat _) as [| n IH]; simpl; [reflexivity |].
    rewrite length_replicate, IH. reflexivity. }
  assert (Hl : length (sets c) = Z.to_nat (numSets c0)).
  { rewrite <- (length_map length), Hlen. apply length_replicate. }
  rewrite (way0Only_predictWay _ _ _ Hw), (way0Only_getPseudoLRU _ _ Hw).
  assert (Hrow : (0 < length (getRow c (addrIndex c a)))%nat).
  { unfold getRow.
    destruct (lookup_lt_is_Some_2 (sets c) (Z.to_nat (addrIndex c a))) as [row Hr];
      [lia |].
    rewrite Hr. simpl.
    assert (Hk : map length (sets c) !! Z.to_nat (addrIndex c a) = Some (length row)).
    { change (map length (sets c)) with (length <$> sets c).
      rewrite list_lookup_fmap, Hr. reflexivity. }
    rewrite Hlen in Hk. apply lookup_replicate in Hk as [-> _]. lia. }
  repeat split; try lia; exact Hrow.
Qed.

(** ** The prefetch cascade never ends on a fresh cache *)

Section LineArithmetic.
Variables s b : Z.
Hypothesis Hs : 0 <= s.
Hypothesis Hb : 0 <= b.
Hypothesis Hsb : s + b <= 30.

Lemma pow_s_pos : 0 < 2 ^ s.
Proof. apply Z.pow_pos_nonneg; lia. Qed.

Lemma pow_b_pos : 0 < 2 ^ b.
Proof. apply Z.pow_pos_nonneg; lia. Qed.

Lemma word_split : 2 ^ 32 = 2 ^ b * (2 ^ s * 2 ^ (32 - b - s)).
Proof. rewrite <- !Z.pow_add_r by lia. f_equal. lia. Qed.

Lemma back_range (x d : Z) : 0 <= back b x d < 2 ^ 32.
Proof. apply wrap32_range. Qed.

Lemma back_0 (x : Z) : 0 <= x < 2 ^ 32 -> back b x 0 = x.
Proof. intros. unfold back. rewrite Z.sub_0_r. apply wrap32_small; lia. Qed.

Lemma back_next (x d : Z) : back b (wrap32 (x + 2 ^ b)) (d + 1) = back b x d.
Proof.
  unfold back, wrap32. rewrite Zminus_mod_idemp_l. f_equal. lia.
Qed.

Lemma lineIndex_range (a : Z) : 0 <= lineIndex s b a < 2 ^ s.
Proof. unfold lineIndex. apply Z.mod_pos_bound, pow_s_pos. Qed.

Lemma lineIndex_back (x d : Z) :
  lineIndex s b (back b x d) = (x / 2 ^ b - d) mod 2 ^ s.
Proof.
  pose proof pow_s_pos. pose proof pow_b_pos.
  assert (0 < 2 ^ (32 - b - s)) by (apply Z.pow_pos_nonneg; lia).
  unfold lineIndex, back, wrap32. rewrite word_split.
  rewrite Z.rem_mul_r by lia.
  rewrite (Z.mul_comm (2 ^ b)), Z.div_add by lia.
  rewrite (Z.div_small (_ mod 2 ^ b)) by (apply Z.mod_pos_bound; lia).
  rewrite Z.add_0_l.
  rewrite Z.mod_mod_divide by (apply Z.divide_factor_l).
  replace (x - d * 2 ^ b) with (x + (- d) * 2 ^ b) by lia.
  rewrite Z.div_add by lia. reflexivity.
Qed.

Lemma lineIndex_back_full (x : Z) :
  lineIndex s b (back b x (2 ^ s)) = lineIndex s b x.
Proof.
  pose proof pow_s_pos. rewrite lineIndex_back. unfold lineIndex.
  replace (x / 2 ^ b - 2 ^ s) with (x / 2 ^ b + (-1) * 2 ^ s) by lia.
  apply Z.mod_add. lia.
Qed.

Lemma lineIndex_back_ne (x d : Z) :
  1 <= d < 2 ^ s -> lineIndex s b (back b x d) <> lineIndex s b x.
Proof.
  intros Hd E. rewrite lineIndex_back in E. unfold lineIndex in E.
  assert (Hz : (x / 2 ^ b - (x / 2 ^ b - d)) mod 2 ^ s = 0).
  { rewrite Zminus_mod, E, Z.sub_diag. apply Z.mod_0_l. lia. }
  replace (x / 2 ^ b - (x / 2 ^ b - d)) with d in Hz by lia.
  rewrite Z.mod_small in Hz by lia. lia.
Qed.

(** A line [d] blocks back, [d] at least the number of sets, never has
    the stored tag of the current line. *)
Lemma stored_tag_back_ne (x d : Z) :
  0 <= x < 2 ^ 32 -> 2 ^ s <= d ->
  2 * (d * 2 ^ b) + 2 ^ (s + b) <= 2 ^ 30 ->
  trunc30 (lineTag s b (back b x d)) <> lineTag s b x.
Proof.
  intros Hx Hd Hsmall.
  pose proof pow_s_pos as Hn. pose proof pow_b_pos as HB.
  assert (HP : 2 ^ (s + b) = 2 ^ s * 2 ^ b) by (apply Z.pow_add_r; lia).
  assert (HPD : 2 ^ (s + b) <= d * 2 ^ b) by (rewrite HP; nia).
  assert (HPpos : 0 < 2 ^ (s + b)) by lia.
  unfold lineTag, trunc30.
  pose proof (back_range x d) as Hy.
  assert (Hcase : back b x d = x - d * 2 ^ b \/
                  back b x d = x - d * 2 ^ b + 2 ^ 32).
  { unfold back, wrap32 in *.
    destruct (Z.le_gt_cases (d * 2 ^ b) x) as [Hle | Hgt].
    - left. apply Z.mod_small. lia.
    - right. symmetry. apply (Z.mod_unique_pos _ _ (-1)); lia. }
  set (y := back b x d) in *. set (D := d * 2 ^ b) in *.
  set (P := 2 ^ (s + b)) in *.
  pose proof (Z.mul_div_le x P HPpos) as Hx1.
  pose proof (Z.mul_succ_div_gt x P HPpos) as Hx2.
  pose proof (Z.mul_div_le y P HPpos) as Hy1.
  pose proof (Z.mul_succ_div_gt y P HPpos) as Hy2.
  assert (0 <= y / P) by (apply Z.div_pos; lia).
  assert (0 <= x / P) by (apply Z.div_pos; lia).
  set (Tx := x / P * P) in *. set (Ty := y / P * P) in *.
  replace (P * (x / P)) with Tx in * by (unfold Tx; lia).
  replace (P * Z.succ (x / P)) with (Tx + P) in * by (unfold Tx; lia).
  replace (P * (y / P)) with Ty in * by (unfold Ty; lia).
  replace (P * Z.succ (y / P)) with (Ty + P) in * by (unfold Ty; lia).
  assert (0 <= Ty) by (unfold Ty; nia).
  assert (0 <= Tx) by (unfold Tx; nia).
  clearbody Tx Ty y D P.
  pose proof (Z.div_mod Ty (2 ^ 30) ltac:(lia)) as Hdm.
  pose proof (Z.mod_pos_bound Ty (2 ^ 30) ltac:(lia)) as Hr.
  change (2 ^ 30) with 1073741824 in *. change (2 ^ 32) with 4294967296 in *.
  lia.
Qed.

End LineArithmetic.

Lemma valid_in_range (c : Cache) (i : Z) (w : nat) :
  valid (getBlock c i w) = true -> (w < length (getRow c i))%nat.
Proof.
  unfold getBlock. destruct (getRow c i !! w) eqn:E; simpl.
  - intros _. eapply lookup_lt_Some, E.
  - discriminate.
Qed.

Lemma missFill_sets (c : Cache) (i t : Z) (w : bool) :
  getPseudoLRU c i = 0%nat ->
  sets (fst (missFill c i t w)) =
  alter (fun row => <[0%nat := mkBlock true w (trunc30 t) (data (getBlock c i 0))]> row)
        (Z.to_nat i) (sets c).
Proof.
  intros H0. unfold missFill. rewrite H0.
  destruct (valid (getBlock c i 0) && dirty (getBlock c i 0)) eqn:E.
  - apply andb_true_iff in E as [Ev Ed].
    pose proof (valid_in_range _ _ _ Ev) as Hr.
    unfold writeBack. cbv zeta.
    rewrite (getBlock_setBlock_same c i 0 _ Hr).
    change (valid (set_dirty (getBlock c i 0) false)) with (valid (getBlock c i 0)).
    rewrite Ev. simpl.
    unfold getBlock at 1, getRow. simpl.
    rewrite list_alter_alter_eq. apply list_alter_ext; [| reflexivity].
    intros row Hrow. simpl.
    rewrite list_lookup_alter_eq.
    unfold getBlock, getRow. rewrite Hrow. simpl.
    rewrite list_insert_insert_eq.
    unfold getRow in Hr. rewrite Hrow in Hr. simpl in Hr.
    rewrite list_lookup_insert_eq by exact Hr. reflexivity.
  - cbv zeta. destruct (valid (getBlock c i 0)); reflexivity.
Qed.

Lemma missFill_victim_tags (c : Cache) (i t : Z) (w : bool) :
  getPseudoLRU c i = 0%nat ->
  map tag (victimCache (fst (missFill c i t w))) =
  if valid (getBlock c i 0) then
    map tag (if Z.of_nat (length (victimCache c)) >=? wrap64 (victimCacheSize c)
             then pop (victimCache c) else victimCache c)
    ++ [tag (getBlock c i 0)]
  else map tag (victimCache c).
Proof.
  intros H0. unfold missFill. rewrite H0.
  destruct (valid (getBlock c i 0) && dirty (getBlock c i 0)) eqn:E.
  - apply andb_true_iff in E as [Ev Ed].
    pose proof (valid_in_range _ _ _ Ev) as Hr.
    unfold writeBack. cbv zeta.
    rewrite (getBlock_setBlock_same c i 0 _ Hr).
    change (valid (set_dirty (getBlock c i 0) false)) with (valid (getBlock c i 0)).
    rewrite Ev. simpl. unfold push. rewrite map_app. reflexivity.
  - cbv zeta. destruct (valid (getBlock c i 0)); [| reflexivity].
    simpl. unfold push. rewrite map_app. reflexivity.
Qed.

Lemma missFill_config (c : Cache) (i t : Z) (w : bool) :
  blockSize (fst (missFill c i t w)) = blockSize c /\
  setMask (fst (missFill c i t w)) = setMask c /\
  tagMask (fst (missFill c i t w)) = tagMask c /\
  victimCacheSize (fst (missFill c i t w)) = victimCacheSize c.
Proof.
  unfold missFill, writeBack.
  destruct (valid _ && dirty _); simpl; destruct (valid _); repeat split.
Qed.

Lemma way0Only_isAlreadyCached (c : Cache) (i t : Z) :
  way0Only c ->
  isAlreadyCached c i t = valid (getBlock c i 0) && (tag (getBlock c i 0) =? t).
Proof.
  intros [Hs _]. unfold isAlreadyCached, getBlock, getRow.
  destruct (sets c !! Z.to_nat i) as [row |] eqn:E; simpl; [| reflexivity].
  pose proof (proj1 (Forall_lookup _ _) Hs _ _ E) as Hrow.
  destruct row as [| b0 row]; simpl in *; [reflexivity |].
  replace (existsb _ row) with false; [apply orb_false_r |].
  symmetry. apply existsb_false_Forall.
  eapply List.Forall_impl; [| exact Hrow]. simpl. intros blk ->. reflexivity.
Qed.

Section Cascade.
Variables s b V : Z.
Hypothesis Hs : 0 <= s.
Hypothesis Hb : 0 <= b.
Hypothesis HV : 0 < V.
Hypothesis Hsmall : (3 * 2 ^ s + 2 * V) * 2 ^ b <= 2 ^ 30.

Lemma cascade_sb : s + b <= 30.
Proof.
  pose proof (pow_s_pos s Hs). pose proof (pow_b_pos b Hb).
  destruct (Z.le_gt_cases (s + b) 30) as [| Hgt]; [assumption |].
  assert (2 ^ 31 <= 2 ^ (s + b)) by (apply Z.pow_le_mono_r; lia).
  rewrite Z.pow_add_r in * by lia.
  change (2 ^ 31) with 2147483648 in *. change (2 ^ 30) with 1073741824 in *.
  nia.
Qed.

Lemma cascade_V_small : V < 2 ^ 30.
Proof.
  pose proof (pow_s_pos s Hs). pose proof (pow_b_pos b Hb).
  change (2 ^ 30) with 1073741824 in *. nia.
Qed.

Lemma cascade_far (d : Z) :
  2 ^ s <= d <= 2 ^ s + V -> 2 * (d * 2 ^ b) + 2 ^ (s + b) <= 2 ^ 30.
Proof.
  intros Hd. pose proof (pow_s_pos s Hs). pose proof (pow_b_pos b Hb).
  rewrite Z.pow_add_r by lia. change (2 ^ 30) with 1073741824 in *. nia.
Qed.

Lemma queueTags_length (m : nat) (x : Z) : length (queueTags s b m x) = m.
Proof. unfold queueTags. rewrite length_map, length_rev, length_seq. reflexivity. Qed.

Lemma queueTags_pop (m : nat) (x : Z) :
  tail (queueTags s b (S m) x) = queueTags s b m x.
Proof. unfold queueTags. rewrite seq_S, rev_app_distr. reflexivity. Qed.

Lemma queueTags_push (m : nat) (x : Z) :
  queueTags s b m x ++ [trunc30 (lineTag s b (back b x (2 ^ s)))]
  = queueTags s b (S m) (wrap32 (x + 2 ^ b)).
Proof.
  unfold queueTags. rewrite <- cons_seq. simpl rev. rewrite map_app. simpl.
  f_equal.
  - rewrite <- (seq_shift m 1), <- map_rev, map_map. apply map_ext. intros j.
    rewrite <- (back_next b x). do 3 f_equal. lia.
  - rewrite <- (back_next b x). do 4 f_equal.
Qed.

Lemma queueTags_ne (m : nat) (x : Z) :
  0 <= x < 2 ^ 32 -> Z.of_nat m <= V ->
  Forall (fun t => t <> lineTag s b x) (queueTags s b m x).
Proof.
  intros Hx Hm. unfold queueTags. apply Forall_map, Forall_forall.
  intros j Hj. apply (proj2 (in_rev _ _)) in Hj. apply in_seq in Hj.
  pose proof (pow_s_pos s Hs).
  apply (stored_tag_back_ne s b Hs Hb); [exact Hx | lia |].
  apply cascade_far. lia.
Qed.

Lemma cascade_decode (k x : Z) (c : Cache) :
  cascadeInv s b V k x c ->
  addrIndex c x = lineIndex s b x /\ addrTag c x = lineTag s b x.
Proof.
  intros I. split.
  - apply addrIndex_arith, (ci_geo _ _ _ _ _ _ I).
  - apply addrTag_arith; [apply (ci_geo _ _ _ _ _ _ I) | apply (ci_x _ _ _ _ _ _ I)].
Qed.

Lemma cascade_not_resident (k x : Z) (c : Cache) :
  cascadeInv s b V k x c ->
  isAlreadyCached c (addrIndex c x) (addrTag c x) = false.
Proof.
  intros I. destruct (cascade_decode _ _ _ I) as [-> ->].
  rewrite (way0Only_isAlreadyCached _ _ _ (ci_way0 _ _ _ _ _ _ I)).
  pose proof (pow_s_pos s Hs) as Hn.
  destruct (ci_lines _ _ _ _ _ _ I (2 ^ s) ltac:(lia)) as [Hv Ht].
  rewrite (lineIndex_back_full s b Hs Hb cascade_sb) in Hv, Ht.
  destruct (valid (getBlock c (lineIndex s b x) 0)); [| reflexivity].
  simpl. apply Z.eqb_neq. symmetry in Hv. apply Z.leb_le in Hv.
  rewrite (Ht Hv).
  apply (stored_tag_back_ne s b Hs Hb);
    [apply (ci_x _ _ _ _ _ _ I) | lia | apply cascade_far; lia].
Qed.

Lemma cascade_queue_length (k x : Z) (c : Cache) :
  cascadeInv s b V k x c ->
  length (victimCache c) = Z.to_nat (Z.min V (Z.max 0 (k - 2 ^ s))).
Proof.
  intros I. rewrite <- (length_map tag), (ci_victim _ _ _ _ _ _ I).
  apply queueTags_length.
Qed.

Lemma cascade_not_in_victim (k x : Z) (c : Cache) :
  cascadeInv s b V k x c -> inVictim c (addrTag c x) = false.
Proof.
  intros I. destruct (cascade_decode _ _ _ I) as [_ ->].
  unfold inVictim. apply existsb_false_Forall.
  pose proof (queueTags_ne (Z.to_nat (Z.min V (Z.max 0 (k - 2 ^ s)))) x
                (ci_x _ _ _ _ _ _ I) ltac:(lia)) as Hq.
  rewrite <- (ci_victim _ _ _ _ _ _ I) in Hq.
  apply (proj1 (List.Forall_map _ _ _)) in Hq.
  eapply List.Forall_impl; [| exact Hq]. simpl. intros blk Hblk.
  apply Z.eqb_neq, Hblk.
Qed.

Lemma cascade_step (k x : Z) (c : Cache) (w : bool) :
  cascadeInv s b V k x c ->
  cascadeInv s b V (k + 1) (wrap32 (x + 2 ^ b))
             (fst (missFill c (addrIndex c x) (addrTag c x) w)).
Proof.
  intros I.
  pose proof (pow_s_pos s Hs) as Hn.
  pose proof cascade_sb as Hsb.
  destruct (cascade_decode _ _ _ I) as [Ei Et]. rewrite Ei, Et.
  set (i := lineIndex s b x). set (t := lineTag s b x).
  pose proof (way0Only_getPseudoLRU c i (ci_way0 _ _ _ _ _ _ I)) as H0.
  pose proof (missFill_sets c i t w H0) as Hsets.
  pose proof (missFill_victim_tags c i t w H0) as Hvic.
  destruct (missFill_config c i t w) as (CB & CS & CT & CV).
  pose proof (way0Only_missFill c i t w (ci_way0 _ _ _ _ _ _ I)) as Hw0.
  pose proof (lineIndex_range s b Hs x) as Hir. fold i in Hir.
  assert (Hrow : exists row, sets c !! Z.to_nat i = Some row /\ row <> []).
  { destruct (lookup_lt_is_Some_2 (sets c) (Z.to_nat i)) as [row Hrow].
    - rewrite (ci_len _ _ _ _ _ _ I). lia.
    - exists row. split; [exact Hrow |].
      exact (proj1 (Forall_lookup _ _) (ci_rows _ _ _ _ _ _ I) _ _ Hrow). }
  destruct Hrow as (row & Hrow & Hne).
  set (c' := fst (missFill c i t w)) in *.
  assert (Hnew : valid (getBlock c' i 0) = true /\
                 tag (getBlock c' i 0) = trunc30 t).
  { unfold getBlock, getRow. rewrite Hsets, list_lookup_alter_eq, Hrow. simpl.
    destruct row as [| b0 row]; [contradiction |]. simpl. split; reflexivity. }
  assert (Hother : forall j, 0 <= j -> j <> i -> getBlock c' j 0 = getBlock c j 0).
  { intros j Hj Hji. unfold getBlock, getRow.
    rewrite Hsets, list_lookup_alter_ne by lia. reflexivity. }
  constructor.
  - destruct (ci_geo _ _ _ _ _ _ I) as [G1 G2 G3 G4 G5 G6].
    constructor; try assumption; congruence.
  - rewrite CB. apply (ci_block _ _ _ _ _ _ I).
  - rewrite CV. apply (ci_vsize _ _ _ _ _ _ I).
  - rewrite Hsets, length_alter. apply (ci_len _ _ _ _ _ _ I).
  - rewrite Hsets. apply Forall_alter; [apply (ci_rows _ _ _ _ _ _ I) |].
    intros r _ Hr E. apply Hr. destruct r; [reflexivity | discriminate].
  - exact Hw0.
  - pose proof (ci_k _ _ _ _ _ _ I). lia.
  - apply wrap32_range.
  - intros d Hd.
    assert (E : back b (wrap32 (x + 2 ^ b)) d = back b x (d - 1))
      by (rewrite <- (back_next b x (d - 1)); f_equal; lia).
    rewrite E. clear E.
    destruct (Z.eq_dec d 1) as [-> | Hd1].
    + change (1 - 1) with 0. rewrite (back_0 b x (ci_x _ _ _ _ _ _ I)).
      fold i t. destruct Hnew as [Hv Ht]. rewrite Hv, Ht.
      pose proof (ci_k _ _ _ _ _ _ I).
      split; [symmetry; apply Z.leb_le; lia | reflexivity].
    + assert (Hne' : lineIndex s b (back b x (d - 1)) <> i).
      { apply (lineIndex_back_ne s b Hs Hb Hsb). lia. }
      pose proof (lineIndex_range s b Hs (back b x (d - 1))) as Hrange.
      rewrite (Hother _ (proj1 Hrange) Hne').
      destruct (ci_lines _ _ _ _ _ _ I (d - 1) ltac:(lia)) as [Hv Ht].
      rewrite Hv. split.
      * destruct (Z.leb_spec (d - 1) k), (Z.leb_spec d (k + 1)); lia || reflexivity.
      * intros Hk. apply Ht. lia.
  - fold c'. rewrite Hvic.
    destruct (ci_lines _ _ _ _ _ _ I (2 ^ s) ltac:(lia)) as [Hv Ht].
    rewrite (lineIndex_back_full s b Hs Hb Hsb) in Hv, Ht. fold i in Hv, Ht.
    pose proof (cascade_queue_length _ _ _ I) as Hlen.
    pose proof cascade_V_small as HVs.
    rewrite (ci_vsize _ _ _ _ _ _ I).
    assert (EV : wrap64 V = V) by (unfold wrap64; apply Z.mod_small; lia).
    rewrite EV, Hv.
    destruct (Z.leb_spec (2 ^ s) k) as [Hk | Hk].
    + rewrite (Ht Hk), Hlen.
      destruct (Z.geb_spec (Z.of_nat (Z.to_nat (Z.min V (Z.max 0 (k - 2 ^ s))))) V)
        as [Hfull | Hroom].
      * assert (Em : Z.to_nat (Z.min V (Z.max 0 (k - 2 ^ s))) = S (Z.to_nat (V - 1)))
          by lia.
        assert (Em' : Z.to_nat (Z.min V (Z.max 0 (k + 1 - 2 ^ s))) = S (Z.to_nat (V - 1)))
          by lia.
        unfold pop. rewrite <- tl_map, (ci_victim _ _ _ _ _ _ I), Em, Em'.
        rewrite queueTags_pop. apply queueTags_push.
      * assert (Em' : Z.to_nat (Z.min V (Z.max 0 (k + 1 - 2 ^ s)))
                      = S (Z.to_nat (Z.min V (Z.max 0 (k - 2 ^ s))))) by lia.
        rewrite (ci_victim _ _ _ _ _ _ I), Em'. apply queueTags_push.
    + rewrite (ci_victim _ _ _ _ _ _ I).
      replace (Z.to_nat (Z.min V (Z.max 0 (k - 2 ^ s)))) with 0%nat by lia.
      replace (Z.to_nat (Z.min V (Z.max 0 (k + 1 - 2 ^ s)))) with 0%nat by lia.
      reflexivity.
Qed.

Lemma cascade_diverges (fuel : nat) :
  forall k x c w, cascadeInv s b V k x c -> accessCache fuel c x w = None.
Proof.
  induction fuel as [| fuel IH]; intros k x c w I; [reflexivity |].
  rewrite accessCache_paths.
  rewrite (cascade_not_resident _ _ _ I), (cascade_not_in_victim _ _ _ I).
  pose proof (cascade_step _ _ _ w I) as I'.
  unfold prefetchStep.
  destruct (missFill_config c (addrIndex c x) (addrTag c x) w) as (CB & _).
  rewrite CB, (ci_block _ _ _ _ _ _ I).
  rewrite (cascade_not_resident _ _ _ I'), (IH _ _ _ false I').
  reflexivity.
Qed.

End Cascade.

Lemma getBlock_new (size block assoc victimSize : Z) (c : Cache) (i : Z) (w : nat) :
  Cache_new size block assoc victimSize = Some c -> getBlock c i w = emptyBlock.
Proof.
  intros H. apply Cache_new_inv in H as (_ & _ & _ & _ & ->).
  unfold getBlock, getRow. simpl.
  destruct (replicate _ _ !! Z.to_nat i) as [row |] eqn:E; [| reflexivity].
  apply lookup_replicate in E as [-> _]. simpl.
  destruct (replicate _ _ !! w) as [blk |] eqn:E; [| reflexivity].
  apply lookup_replicate in E as [-> _]. reflexivity.
Qed.

Lemma cascadeInv_new (size block assoc victimSize s b x : Z) (c : Cache) :
  Cache_new size block assoc victimSize = Some c ->
  0 <= s -> 0 <= b -> block = 2 ^ b -> numSets c = 2 ^ s ->
  0 <= x < 2 ^ 32 ->
  cascadeInv s b victimSize 0 x c.
Proof.
  intros Hnew Hs Hb HB HN Hx.
  pose proof (Cache_new_geometry _ _ _ _ _ Hnew) as G.
  pose proof (way0Only_new _ _ _ _ _ Hnew) as W.
  pose proof (fun i w => getBlock_new _ _ _ _ _ i w Hnew) as Hblk.
  pose proof (Cache_new_inv _ _ _ _ _ Hnew) as (_ & Ha & Hn & Hk & Ec).
  assert (EB : blockSize c = block) by (rewrite Ec; reflexivity).
  assert (EV : victimCacheSize c = victimSize) by (rewrite Ec; reflexivity).
  assert (EN : Z.quot (Z.quot size block) assoc = 2 ^ s)
    by (rewrite <- HN, Ec; reflexivity).
  assert (ES : sets c = replicate (Z.to_nat (2 ^ s))
                          (replicate (Z.to_nat assoc) emptyBlock))
    by (rewrite Ec; simpl; rewrite EN; reflexivity).
  assert (EQ : victimCache c = []) by (rewrite Ec; reflexivity).
  rewrite HN, EB, HB, !ctz_pow2 in G by lia.
  pose proof (pow_s_pos s Hs).
  constructor.
  - exact G.
  - rewrite EB. exact HB.
  - exact EV.
  - rewrite ES. apply length_replicate.
  - rewrite ES. apply Forall_replicate.
    destruct (Z.to_nat assoc) eqn:E; [lia | discriminate].
  - exact W.
  - lia.
  - exact Hx.
  - intros d Hd. rewrite Hblk. simpl. split; [| lia].
    symmetry. apply Z.leb_gt. lia.
  - rewrite EQ. replace (Z.to_nat _) with 0%nat by lia. reflexivity.
Qed.


(** C3.  A cache built with a block size 2^b and 2^s sets, at least one
    victim entry and (3 * numSets + 2 * victimCacheSize) * blockSize <= 2^30
    (every usual configuration, the two levels of the demonstration among
    them): on the fresh cache no call of [accessCache] returns, whatever the
    address and the write flag.  Each miss fills a line and prefetches the
    next one, which is never resident and never in the victim buffer. *)
Theorem fresh_cache_access_never_returns
    (size block assoc victimSize s b : Z) (c0 : Cache) (address : Z)
    (isWrite : bool) :
  Cache_new size block assoc victimSize = Some c0 ->
  0 <= s -> 0 <= b -> block = 2 ^ b -> numSets c0 = 2 ^ s ->
  0 < victimSize ->
  (3 * numSets c0 + 2 * victimSize) * block <= 2 ^ 30 ->
  0 <= address < 2 ^ 32 ->
  forall fuel, accessCache fuel c0 address isWrite = None.
Proof.
  intros Hnew Hs Hb HB HN HV Hsmall Ha fuel.
  rewrite HN, HB in Hsmall.
  apply (cascade_diverges s b victimSize Hs Hb HV Hsmall fuel 0).
  exact (cascadeInv_new _ _ _ _ _ _ _ _ Hnew Hs Hb HB HN Ha).
Qed.

Lemma fresh_cache_access_never_returns_witness :
  exists c0,
    Cache_new (32 * 1024) 64 8 8 = Some c0 /\
    64 = 2 ^ 6 /\ numSets c0 = 2 ^ 6 /\
    (3 * numSets c0 + 2 * 8) * 64 <= 2 ^ 30 /\
    forall fuel, accessCache fuel c0 100 false = None.
Proof.
  eexists. split; [vm_compute; reflexivity |].
  split; [reflexivity |]. split; [reflexivity |].
  split; [vm_compute; discriminate |].
  apply (fresh_cache_access_never_returns (32 * 1024) 64 8 8 6 6);
    [vm_compute; reflexivity | lia | lia | reflexivity | reflexivity | lia
    | vm_compute; discriminate | lia].
Defined.

(** * Further properties of the code *)

(** ** Two caches to try the results on *)

Lemma smallCache_new : Cache_new (2 ^ 29) (2 ^ 28) 1 4 = Some smallCache.
Proof. vm_compute. reflexivity. Qed.

Lemma smallCache_read_0 :
  exists tr, accessCache 20 smallCache 0 false = Some (false, smallCacheWarm, tr).
Proof. eexists. vm_compute. reflexivity. Qed.

Lemma smallCacheWarm_visited : visited smallCache smallCacheWarm.
Proof.
  destruct smallCache_read_0 as [tr H].
  exact (visited_accessCache _ _ _ _ _ _ _ _ (visit_init _) H).
Qed.

Lemma visited_accessAll (c0 : Cache) (fuel : nat) (ops : list (Z * bool)) :
  forall c c' out,
    visited c0 c -> accessAll fuel c ops = Some (c', out) -> visited c0 c'.
Proof.
  induction ops as [| [a w] ops IH]; intros c c' out Hv H; simpl in H.
  - injection H as <- _. exact Hv.
  - destruct (accessCache fuel c a w) as [[[r c1] tr] |] eqn:E; [| discriminate].
    destruct (accessAll fuel c1 ops) as [[c2 out2] |] eqn:E2; [| discriminate].
    injection H as <- _.
    exact (IH _ _ _ (visited_accessCache _ _ _ _ _ _ _ _ Hv E) E2).
Qed.

Lemma twoWayCache_new : Cache_new (2 ^ 30) (2 ^ 29) 2 2 = Some twoWayCache.
Proof. vm_compute. reflexivity. Qed.

Lemma twoWayCache_reads :
  exists out,
    accessAll 40 twoWayCache (repeat (0, false) 300) = Some (twoWayCacheWorn, out).
Proof. eexists. vm_compute. reflexivity. Qed.

Lemma twoWayCacheWorn_visited : visited twoWayCache twoWayCacheWorn.
Proof.
  destruct twoWayCache_reads as [out H].
  exact (visited_accessAll _ _ _ _ _ _ (visit_init _) H).
Qed.

(** ** More on the address split *)

Lemma addr_split_arith (N B a : Z) :
  0 < N -> 0 < B ->
  a / (N * B) * (N * B) + (a / B) mod N * B + a mod B = a.
Proof.
  intros HN HB.
  pose proof (Z.div_mod a B ltac:(lia)) as E1.
  pose proof (Z.div_mod (a / B) N ltac:(lia)) as E2.
  rewrite (Z.mul_comm N B), <- Z.div_div by lia.
  nia.
Qed.

Lemma address_split_sum (c : Cache) (s b a : Z) :
  geometry c s b -> 0 <= a < 2 ^ 32 ->
  addrTag c a + addrIndex c a * 2 ^ b + a mod 2 ^ b = a.
Proof.
  intros G Ha.
  rewrite (addrTag_arith _ _ _ _ G Ha), (addrIndex_arith _ _ _ a G).
  pose proof (geo_s _ _ _ G). pose proof (geo_b _ _ _ G).
  rewrite Z.pow_add_r by lia.
  apply addr_split_arith; apply Z.pow_pos_nonneg; lia.
Qed.

(** X1.  Tag, index and offset put an address together again: on a cache
    the constructor has built, the tag (kept in place, not shifted down),
    the set index times the block size the shifts use, and the offset in
    the block add up to the 32-bit address. *)
Theorem decode_round_trip (size block assoc victimSize : Z) (c : Cache) (a : Z) :
  Cache_new size block assoc victimSize = Some c ->
  0 <= a < 2 ^ 32 ->
  addrTag c a + addrIndex c a * 2 ^ ctz (blockSize c)
  + a mod 2 ^ ctz (blockSize c) = a.
Proof.
  intros Hnew Ha.
  exact (address_split_sum _ _ _ _ (Cache_new_geometry _ _ _ _ _ Hnew) Ha).
Qed.

Lemma decode_round_trip_witness :
  Cache_new (2 ^ 29) (2 ^ 28) 1 4 = Some smallCache /\
  0 <= 1000000000 < 2 ^ 32 /\
  addrTag smallCache 1000000000
  + addrIndex smallCache 1000000000 * 2 ^ ctz (blockSize smallCache)
  + 1000000000 mod 2 ^ ctz (blockSize smallCache) = 1000000000.
Proof.
  split; [exact smallCache_new |]. split; [lia |].
  apply (decode_round_trip _ _ _ _ _ _ smallCache_new). lia.
Defined.

(** X2.  Two 32-bit addresses get the same set index and the same tag
    exactly when they lie in the same block, a block being 2^ctz(blockSize)
    bytes: the pair (index, tag) names the block and nothing else. *)
Theorem same_block_same_line
    (size block assoc victimSize : Z) (c : Cache) (a a' : Z) :
  Cache_new size block assoc victimSize = Some c ->
  0 <= a < 2 ^ 32 -> 0 <= a' < 2 ^ 32 ->
  (addrIndex c a = addrIndex c a' /\ addrTag c a = addrTag c a')
  <-> a / 2 ^ ctz (blockSize c) = a' / 2 ^ ctz (blockSize c).
Proof.
  intros Hnew Ha Ha'. pose proof (Cache_new_geometry _ _ _ _ _ Hnew) as G.
  pose proof (address_split_sum _ _ _ _ G Ha) as R.
  pose proof (address_split_sum _ _ _ _ G Ha') as R'.
  pose proof (ctz_nonneg (numSets c)) as Hs.
  pose proof (ctz_nonneg (blockSize c)) as Hb.
  assert (HB : 0 < 2 ^ ctz (blockSize c)) by (apply Z.pow_pos_nonneg; lia).
  assert (HN : 0 < 2 ^ ctz (numSets c)) by (apply Z.pow_pos_nonneg; lia).
  split.
  - intros [Ei Et]. rewrite Ei, Et in R.
    pose proof (Z.div_mod a (2 ^ ctz (blockSize c)) ltac:(lia)).
    pose proof (Z.div_mod a' (2 ^ ctz (blockSize c)) ltac:(lia)).
    nia.
  - intros E.
    rewrite !(addrIndex_arith _ _ _ _ G), !(addrTag_arith _ _ _ _ G) by assumption.
    rewrite Z.pow_add_r by lia.
    rewrite !(Z.mul_comm (2 ^ ctz (numSets c)) (2 ^ ctz (blockSize c))).
    rewrite <- !Z.div_div by lia. rewrite E. split; reflexivity.
Qed.

Lemma same_block_same_line_witness :
  Cache_new (2 ^ 29) (2 ^ 28) 1 4 = Some smallCache /\
  0 <= 300000000 < 2 ^ 32 /\ 0 <= 400000000 < 2 ^ 32 /\
  ((addrIndex smallCache 300000000 = addrIndex smallCache 400000000 /\
    addrTag smallCache 300000000 = addrTag smallCache 400000000)
   <-> 300000000 / 2 ^ ctz (blockSize smallCache)
       = 400000000 / 2 ^ ctz (blockSize smallCache)).
Proof.
  split; [exact smallCache_new |]. split; [lia |]. split; [lia |].
  apply (same_block_same_line _ _ _ _ _ _ _ smallCache_new); lia.
Defined.

(** X3.  The address [prefetchNextLine] computes, address + blockSize in
    32 bits, falls into the next set, the first set after the last one,
    when the block size is a power of two. *)
Theorem next_line_next_set
    (size block assoc victimSize : Z) (c : Cache) (a : Z) :
  Cache_new size block assoc victimSize = Some c ->
  blockSize c = 2 ^ ctz (blockSize c) ->
  addrIndex c (wrap32 (a + blockSize c))
  = (addrIndex c a + 1) mod 2 ^ ctz (numSets c).
Proof.
  intros Hnew HB. pose proof (Cache_new_geometry _ _ _ _ _ Hnew) as G.
  pose proof (ctz_nonneg (numSets c)) as Hs.
  pose proof (ctz_nonneg (blockSize c)) as Hb.
  rewrite !(addrIndex_arith _ _ _ _ G).
  pose proof (lineIndex_back _ _ Hs Hb (geo_sb _ _ _ G) a (-1)) as E.
  unfold lineIndex, back in E.
  replace (a - -1 * 2 ^ ctz (blockSize c)) with (a + blockSize c) in E by lia.
  rewrite E, Zplus_mod_idemp_l. f_equal; lia.
Qed.

Lemma next_line_next_set_witness :
  Cache_new (2 ^ 29) (2 ^ 28) 1 4 = Some smallCache /\
  blockSize smallCache = 2 ^ ctz (blockSize smallCache) /\
  addrIndex smallCache (wrap32 (4026531840 + blockSize smallCache))
  = (addrIndex smallCache 4026531840 + 1) mod 2 ^ ctz (numSets smallCache).
Proof.
  split; [exact smallCache_new |]. split; [reflexivity |].
  apply (next_line_next_set _ _ _ _ _ _ smallCache_new). reflexivity.
Defined.

(** ** The replacement policy in use *)

(** X4.  In every state a constructed cache goes through, [getPseudoLRU]
    answers way 0 for every set and [predictWay] answers way 0 for every
    set and tag, and no other way of any set holds a valid block: whatever
    the associativity, each set works as one line. *)
Theorem only_way_0_is_used
    (size block assoc victimSize : Z) (c0 c : Cache) (index t : Z) (way : nat) :
  Cache_new size block assoc victimSize = Some c0 ->
  visited c0 c ->
  getPseudoLRU c index = 0%nat /\
  predictWay c index t = 0%nat /\
  (way <> 0%nat -> valid (getBlock c index way) = false).
Proof.
  intros Hnew Hv.
  pose proof (way0Only_visited _ _ (way0Only_new _ _ _ _ _ Hnew) Hv) as Hw.
  split; [apply way0Only_getPseudoLRU, Hw |].
  split; [apply way0Only_predictWay, Hw |].
  intros Hway. destruct Hw as [Hs _]. unfold getBlock, getRow.
  destruct (sets c !! Z.to_nat index) as [row |] eqn:E; simpl; [| reflexivity].
  destruct (row !! way) as [b |] eqn:Eb; simpl; [| reflexivity].
  pose proof (proj1 (Forall_lookup _ _) Hs _ _ E) as Hrow.
  destruct way as [| way]; [contradiction |].
  destruct row as [| b0 row]; [discriminate |]. simpl in Hrow, Eb.
  exact (proj1 (Forall_lookup _ _) Hrow _ _ Eb).
Qed.

Lemma only_way_0_is_used_witness :
  Cache_new (2 ^ 30) (2 ^ 29) 2 2 = Some twoWayCache /\
  visited twoWayCache twoWayCacheWorn /\
  ways twoWayCacheWorn = 2 /\
  getRow twoWayCacheWorn 0 = [mkBlock true false 0 0; emptyBlock] /\
  getCounters twoWayCacheWorn 0 = [0; 255] /\
  getPseudoLRU twoWayCacheWorn 0 = 0%nat /\
  predictWay twoWayCacheWorn 0 (2 ^ 29) = 0%nat /\
  (1%nat <> 0%nat -> valid (getBlock twoWayCacheWorn 0 1) = false).
Proof.
  split; [exact twoWayCache_new |]. split; [exact twoWayCacheWorn_visited |].
  split; [reflexivity |]. split; [reflexivity |]. split; [reflexivity |].
  exact (only_way_0_is_used _ _ _ _ _ _ 0 (2 ^ 29) 1%nat
           twoWayCache_new twoWayCacheWorn_visited).
Defined.

Lemma pseudoLRU_hitUpdate (c : Cache) (i : Z) (w : nat) (isWrite : bool) :
  pseudoLRU (hitUpdate c i w isWrite)
  = alter (updateRow w 0) (Z.to_nat i) (pseudoLRU c).
Proof. unfold hitUpdate. destruct isWrite; reflexivity. Qed.

Lemma pseudoLRU_victimFill (c : Cache) (i : Z) (isWrite : bool) :
  pseudoLRU (victimFill c i isWrite)
  = alter (updateRow (getPseudoLRU c i) 0) (Z.to_nat i) (pseudoLRU c).
Proof. reflexivity. Qed.

Lemma pseudoLRU_missFill (c : Cache) (i t : Z) (isWrite : bool) :
  pseudoLRU (fst (missFill c i t isWrite))
  = alter (updateRow (getPseudoLRU c i) 0) (Z.to_nat i) (pseudoLRU c).
Proof.
  unfold missFill, writeBack.
  destruct (valid _ && dirty _); simpl; destruct (valid _); reflexivity.
Qed.

Lemma pseudoLRU_checkVictimCache (c : Cache) (t : Z) :
  pseudoLRU (snd (fst (checkVictimCache c t))) = pseudoLRU c.
Proof.
  unfold checkVictimCache.
  destruct (checkVictimLoop _ _ _) as [[found q] tr]. reflexivity.
Qed.

Lemma countersSound_alter (c c' : Cache) (u : nat) (i : nat) :
  countersSound c ->
  numSets c' = numSets c -> ways c' = ways c ->
  pseudoLRU c' = alter (updateRow u 0) i (pseudoLRU c) ->
  countersSound c'.
Proof.
  intros (Hl & Hr & Hb) EN EW E. unfold countersSound.
  rewrite E, EN, EW, length_alter.
  split; [exact Hl |]. split.
  - apply Forall_alter; [exact Hr |].
    intros row _ Hrow. rewrite updateRow_length. exact Hrow.
  - apply Forall_alter; [exact Hb |].
    intros row _ Hrow. apply updateRow_bounds, Hrow.
Qed.

Lemma countersSound_new (size block assoc victimSize : Z) (c : Cache) :
  Cache_new size block assoc victimSize = Some c -> countersSound c.
Proof.
  intros H. apply Cache_new_inv in H as (_ & _ & _ & _ & ->).
  unfold countersSound. simpl.
  split; [apply length_replicate |]. split.
  - apply Forall_replicate, length_replicate.
  - apply Forall_replicate, Forall_replicate. lia.
Qed.

Lemma countersSound_visited (c0 c : Cache) :
  countersSound c0 -> visited c0 c -> countersSound c.
Proof.
  intros H0 Hv.
  induction Hv as [| c a w Hv IH _ | c a w Hv IH _ _ | c a w Hv IH _ _].
  - exact H0.
  - eapply (countersSound_alter c);
      [exact IH
      | unfold hitUpdate; destruct w; reflexivity
      | unfold hitUpdate; destruct w; reflexivity
      | apply pseudoLRU_hitUpdate].
  - pose proof (pseudoLRU_checkVictimCache c (addrTag c a)) as E.
    eapply (countersSound_alter c); [exact IH | | | ].
    + unfold checkVictimCache.
      destruct (checkVictimLoop _ _ _) as [[found q] tr]. reflexivity.
    + unfold checkVictimCache.
      destruct (checkVictimLoop _ _ _) as [[found q] tr]. reflexivity.
    + rewrite pseudoLRU_victimFill, E. reflexivity.
  - eapply (countersSound_alter c); [exact IH | | | apply pseudoLRU_missFill];
      unfold missFill, writeBack;
      destruct (valid _ && dirty _); simpl; destruct (valid _); reflexivity.
Qed.

(** X5.  In every state a constructed cache goes through there is one row
    of counters per set and one counter per way, and every counter is a
    value of [uint8_t]: the increment in [updatePseudoLRU] never wraps. *)
Theorem counters_stay_uint8
    (size block assoc victimSize : Z) (c0 c : Cache) :
  Cache_new size block assoc victimSize = Some c0 ->
  visited c0 c ->
  countersSound c.
Proof.
  intros Hnew Hv.
  exact (countersSound_visited _ _ (countersSound_new _ _ _ _ _ Hnew) Hv).
Qed.

Lemma counters_stay_uint8_witness :
  Cache_new (2 ^ 30) (2 ^ 29) 2 2 = Some twoWayCache /\
  visited twoWayCache twoWayCacheWorn /\
  (exists out,
     accessAll 40 twoWayCache (repeat (0, false) 300)
     = Some (twoWayCacheWorn, out)) /\
  getCounters twoWayCacheWorn 0 = [0; 255] /\
  countersSound twoWayCacheWorn.
Proof.
  split; [exact twoWayCache_new |]. split; [exact twoWayCacheWorn_visited |].
  split; [exact twoWayCache_reads |]. split; [reflexivity |].
  exact (counters_stay_uint8 _ _ _ _ _ _ twoWayCache_new twoWayCacheWorn_visited).
Defined.

(** X6.  [getPseudoLRU] returns the first way whose counter is 0: every
    counter before it is not 0, and either the counter at it is 0 or no
    counter of the set is 0 and the result is the number of counters, one
    past the last way. *)
Theorem getPseudoLRU_scan (c : Cache) (setIndex : Z) :
  (forall j v, (j < getPseudoLRU c setIndex)%nat ->
               getCounters c setIndex !! j = Some v -> v <> 0) /\
  (getCounters c setIndex !! getPseudoLRU c setIndex = Some 0 \/
   (getPseudoLRU c setIndex = length (getCounters c setIndex) /\
    Forall (fun v => v <> 0) (getCounters c setIndex))).
Proof.
  unfold getPseudoLRU. generalize (getCounters c setIndex) as row.
  induction row as [| v row [IH1 IH2]]; simpl.
  - split; [intros j v Hj; lia |]. right. split; [reflexivity | constructor].
  - destruct (Z.eqb_spec v 0) as [-> | Hv].
    + split; [intros j v Hj; lia |]. left. reflexivity.
    + split.
      * intros [| j] x Hj; simpl; [intros [= <-]; exact Hv |].
        apply IH1. lia.
      * destruct IH2 as [IH2 | [IH2 IH3]]; [left; exact IH2 |].
        right. split; [f_equal; exact IH2 | constructor; assumption].
Qed.

(** X7.  [predictWay] returns the first way of the set whose block is
    valid and carries the tag; when no way does, it returns way 0, which
    the caller then tests and finds not to match. *)
Theorem predictWay_first_match (c : Cache) (setIndex t : Z) :
  (isAlreadyCached c setIndex t = true ->
   exists b, getRow c setIndex !! predictWay c setIndex t = Some b /\
             valid b = true /\ tag b = t /\
             forall j x, (j < predictWay c setIndex t)%nat ->
                         getRow c setIndex !! j = Some x ->
                         valid x && (tag x =? t) = false) /\
  (isAlreadyCached c setIndex t = false ->
   predictWay c setIndex t = 0%nat /\
   valid (getBlock c setIndex 0) && (tag (getBlock c setIndex 0) =? t) = false).
Proof.
  unfold isAlreadyCached, predictWay, getBlock.
  generalize (getRow c setIndex) as row.
  induction row as [| y row [IH1 IH2]]; simpl.
  - split; [discriminate |]. intros _. split; reflexivity.
  - destruct (valid y && (tag y =? t)) eqn:Ey; simpl.
    + split; [| discriminate]. intros _. exists y.
      apply andb_true_iff in Ey as [Hv Ht]. apply Z.eqb_eq in Ht.
      repeat split; try assumption. intros j x Hj. lia.
    + split.
      * intros Hex. destruct (IH1 Hex) as (b & Hb & Hv & Ht & Hfirst).
        destruct (scanWays row t) as [w |] eqn:Ew; simpl in *.
        -- exists b. repeat split; try assumption.
           intros [| j] x Hj; simpl; [intros [= <-]; exact Ey |].
           apply Hfirst. lia.
        -- apply scanWays_None in Ew.
           apply existsb_false_Forall in Ew. congruence.
      * intros Hex.
        destruct (scanWays row t) as [w |] eqn:Ew; simpl.
        -- destruct (scanWays_Some _ _ _ Ew) as (b & Hb & Hc).
           apply existsb_false_Forall in Hex.
           pose proof (proj1 (Forall_lookup _ _) Hex _ _ Hb) as Hn.
           simpl in Hn. congruence.
        -- split; reflexivity.
Qed.

(** ** The victim buffer *)

Lemma checkVictimCache_Permutation (c : Cache) (t : Z) :
  victimCache (snd (fst (checkVictimCache c t))) ≡ₚ victimCache c.
Proof.
  destruct (inVictim c t) eqn:Hin.
  - destruct (checkVictimCache_present _ _ Hin)
      as (pre & b & post & E & _ & _ & ->). simpl.
    rewrite E, (Permutation_app_comm post), <- app_assoc. reflexivity.
  - rewrite (checkVictimCache_absent _ _ Hin). reflexivity.
Qed.

Lemma sets_checkVictimCache (c : Cache) (t : Z) :
  sets (snd (fst (checkVictimCache c t))) = sets c.
Proof.
  unfold checkVictimCache.
  destruct (checkVictimLoop _ _ _) as [[found q] tr]. reflexivity.
Qed.

(** X8.  [checkVictimCache] answers whether some block of the buffer
    carries the tag, whatever its valid bit.  It loses and adds no block:
    the buffer afterwards is a rearrangement of the buffer before.  It
    touches neither the sets nor the counters, and when the tag is absent
    it leaves the cache as it was and prints nothing. *)
Theorem checkVictimCache_keeps_entries (c : Cache) (t : Z) :
  fst (fst (checkVictimCache c t)) = inVictim c t /\
  victimCache (snd (fst (checkVictimCache c t))) ≡ₚ victimCache c /\
  sets (snd (fst (checkVictimCache c t))) = sets c /\
  pseudoLRU (snd (fst (checkVictimCache c t))) = pseudoLRU c /\
  (inVictim c t = false ->
   snd (fst (checkVictimCache c t)) = c /\ snd (checkVictimCache c t) = []).
Proof.
  split.
  - destruct (inVictim c t) eqn:Hin.
    + destruct (checkVictimCache_present _ _ Hin)
        as (pre & b & post & _ & _ & _ & ->). reflexivity.
    + rewrite (checkVictimCache_absent _ _ Hin). reflexivity.
  - split; [apply checkVictimCache_Permutation |].
    split; [apply sets_checkVictimCache |].
    split; [apply pseudoLRU_checkVictimCache |].
    intros Hin. rewrite (checkVictimCache_absent _ _ Hin). split; reflexivity.
Qed.

Lemma victimCacheSize_hitUpdate (c : Cache) (i : Z) (w : nat) (isWrite : bool) :
  victimCacheSize (hitUpdate c i w isWrite) = victimCacheSize c /\
  victimCache (hitUpdate c i w isWrite) = victimCache c.
Proof. unfold hitUpdate. destruct isWrite; split; reflexivity. Qed.

Lemma victimCacheSize_checkVictimCache (c : Cache) (t : Z) :
  victimCacheSize (snd (fst (checkVictimCache c t))) = victimCacheSize c.
Proof.
  unfold checkVictimCache.
  destruct (checkVictimLoop _ _ _) as [[found q] tr]. reflexivity.
Qed.

Lemma victimCacheSize_missFill (c : Cache) (i t : Z) (isWrite : bool) :
  victimCacheSize (fst (missFill c i t isWrite)) = victimCacheSize c.
Proof.
  unfold missFill, writeBack.
  destruct (valid _ && dirty _); simpl; destruct (valid _); reflexivity.
Qed.

Lemma set_dirty_same (b : CacheBlock) : set_dirty b (dirty b) = b.
Proof. destruct b. reflexivity. Qed.

Lemma missFill_effect (c : Cache) (index t : Z) (isWrite : bool) :
  victimCache (fst (missFill c index t isWrite)) =
    (if valid (getBlock c index (getPseudoLRU c index))
     then push (if Z.of_nat (length (victimCache c)) >=? wrap64 (victimCacheSize c)
                then pop (victimCache c) else victimCache c)
               (set_dirty (getBlock c index (getPseudoLRU c index)) false)
     else victimCache c) /\
  snd (missFill c index t isWrite) =
    EvMiss :: (if valid (getBlock c index (getPseudoLRU c index))
                  && dirty (getBlock c index (getPseudoLRU c index))
               then [EvWriteBackDirty;
                     EvWriteBack (tag (getBlock c index (getPseudoLRU c index)))]
               else []).
Proof.
  unfold missFill.
  destruct (valid (getBlock c index (getPseudoLRU c index))) eqn:Ev; simpl.
  - destruct (dirty (getBlock c index (getPseudoLRU c index))) eqn:Ed; simpl.
    + pose proof (valid_in_range _ _ _ Ev) as Hr.
      rewrite (getBlock_setBlock_same c index _ _ Hr). simpl. rewrite Ev.
      split; reflexivity.
    + rewrite Ev. simpl. rewrite <- Ed, set_dirty_same. split; reflexivity.
  - rewrite Ev. split; reflexivity.
Qed.

(** X9.  What a miss does with the line it replaces.  An invalid line
    leaves the victim buffer alone.  A valid line goes to the back of the
    buffer with its dirty bit cleared, after the oldest entry has been
    dropped when the buffer is full.  The output is the miss line, followed
    by the two write-back lines with the old tag exactly when the old line
    was valid and dirty. *)
Theorem miss_evicts_into_victim (c : Cache) (index t : Z) (isWrite : bool) :
  let old := getBlock c index (getPseudoLRU c index) in
  let q := victimCache c in
  victimCache (fst (missFill c index t isWrite)) =
    (if valid old
     then push (if Z.of_nat (length q) >=? wrap64 (victimCacheSize c)
                then pop q else q)
               (set_dirty old false)
     else q) /\
  snd (missFill c index t isWrite) =
    EvMiss :: (if valid old && dirty old
               then [EvWriteBackDirty; EvWriteBack (tag old)] else []).
Proof. intros old q. apply missFill_effect. Qed.

Lemma length_pop (q : list CacheBlock) : length (pop q) = (length q - 1)%nat.
Proof. destruct q; simpl; lia. Qed.

Lemma fixedFields_visited (c0 c : Cache) :
  visited c0 c ->
  cacheSize c = cacheSize c0 /\ victimCacheSize c = victimCacheSize c0.
Proof.
  intros Hv.
  induction Hv as [| c a w Hv [IH1 IH2] _ | c a w Hv [IH1 IH2] _ _
                  | c a w Hv [IH1 IH2] _ _].
  - split; reflexivity.
  - rewrite <- IH1, <- IH2. unfold hitUpdate. destruct w; split; reflexivity.
  - rewrite <- IH1, <- IH2. unfold checkVictimCache.
    destruct (checkVictimLoop _ _ _) as [[found q] tr]. split; reflexivity.
  - rewrite <- IH1, <- IH2. unfold missFill, writeBack.
    destruct (valid _ && dirty _); simpl; destruct (valid _); split; reflexivity.
Qed.

Lemma victimCacheSize_visited (size block assoc victimSize : Z) (c0 c : Cache) :
  Cache_new size block assoc victimSize = Some c0 ->
  visited c0 c -> victimCacheSize c = victimSize.
Proof.
  intros Hnew Hv. rewrite (proj2 (fixedFields_visited _ _ Hv)).
  pose proof (Cache_new_inv _ _ _ _ _ Hnew) as (_ & _ & _ & _ & ->). reflexivity.
Qed.

(** X10.  With a capacity of at least one entry the victim buffer of a
    constructed cache never holds more blocks than its capacity, in any
    state the cache goes through. *)
Theorem victim_never_exceeds_capacity
    (size block assoc victimSize : Z) (c0 c : Cache) :
  Cache_new size block assoc victimSize = Some c0 ->
  0 < victimSize < 2 ^ 64 ->
  visited c0 c ->
  victimCacheSize c = victimSize /\
  Z.of_nat (length (victimCache c)) <= victimSize.
Proof.
  intros Hnew HV Hv.
  split; [exact (victimCacheSize_visited _ _ _ _ _ _ Hnew Hv) |].
  assert (H0 : Z.of_nat (length (victimCache c0)) <= victimSize).
  { pose proof (Cache_new_inv _ _ _ _ _ Hnew) as (_ & _ & _ & _ & ->).
    simpl. lia. }
  induction Hv as [| c a w Hv IH _ | c a w Hv IH _ Hin | c a w Hv IH _ _].
  - exact H0.
  - destruct (victimCacheSize_hitUpdate c (addrIndex c a)
                (predictWay c (addrIndex c a) (addrTag c a)) w) as [_ ->].
    exact IH.
  - pose proof (checkVictimCache_Permutation c (addrTag c a)) as Hp.
    apply Permutation_length in Hp.
    change (Z.of_nat (length (pop (victimCache
              (snd (fst (checkVictimCache c (addrTag c a))))))) <= victimSize).
    rewrite length_pop. lia.
  - pose proof (victimCacheSize_visited _ _ _ _ _ _ Hnew Hv) as ES.
    destruct (missFill_effect c (addrIndex c a) (addrTag c a) w) as [-> _].
    destruct (valid _); [| exact IH].
    unfold push. rewrite length_app. simpl.
    rewrite ES. unfold wrap64. rewrite Z.mod_small by lia.
    destruct (Z.geb_spec (Z.of_nat (length (victimCache c))) victimSize).
    + rewrite length_pop. lia.
    + lia.
Qed.

Lemma victim_never_exceeds_capacity_witness :
  Cache_new (2 ^ 29) (2 ^ 28) 1 4 = Some smallCache /\
  0 < 4 < 2 ^ 64 /\
  visited smallCache smallCacheWarm /\
  victimCacheSize smallCacheWarm = 4 /\
  Z.of_nat (length (victimCache smallCacheWarm)) <= 4.
Proof.
  split; [exact smallCache_new |]. split; [lia |].
  split; [exact smallCacheWarm_visited |].
  apply (victim_never_exceeds_capacity _ _ _ _ _ _ smallCache_new);
    [lia | exact smallCacheWarm_visited].
Defined.

(** X11.  [addToVictimCache] keeps a first-in first-out window: after any
    run of calls on a buffer that was within its capacity, the buffer holds
    the last [victimCacheSize] blocks of the old content followed by the
    blocks added, in that order. *)
Theorem victim_buffer_is_fifo (c : Cache) (blocks : list CacheBlock) :
  0 < victimCacheSize c < 2 ^ 64 ->
  Z.of_nat (length (victimCache c)) <= victimCacheSize c ->
  victimCache (addAllToVictimCache c blocks) =
  drop (length (victimCache c ++ blocks) - Z.to_nat (victimCacheSize c))
       (victimCache c ++ blocks).
Proof.
  unfold addAllToVictimCache. revert c.
  induction blocks as [| b blocks IH]; intros c HV Hlen; simpl.
  - rewrite app_nil_r.
    replace (length (victimCache c) - Z.to_nat (victimCacheSize c))%nat
      with 0%nat by lia.
    reflexivity.
  - assert (Hq : victimCache (addToVictimCache c b) =
                 (if Z.of_nat (length (victimCache c)) >=? victimCacheSize c
                  then tail (victimCache c) else victimCache c) ++ [b]).
    { unfold addToVictimCache, wrap64. simpl.
      rewrite Z.mod_small by lia. reflexivity. }
    assert (ES : victimCacheSize (addToVictimCache c b) = victimCacheSize c)
      by reflexivity.
    rewrite IH.
    + rewrite ES, Hq.
      destruct (Z.geb_spec (Z.of_nat (length (victimCache c))) (victimCacheSize c)).
      * destruct (victimCache c) as [| x q] eqn:E; simpl in *; [lia |].
        rewrite <- app_assoc. simpl.
        rewrite !length_app. simpl.
        replace (S (length q + S (length blocks)) - Z.to_nat (victimCacheSize c))%nat
          with (S (length q + S (length blocks) - Z.to_nat (victimCacheSize c)))
          by lia.
        reflexivity.
      * rewrite <- app_assoc. reflexivity.
    + rewrite ES. exact HV.
    + rewrite ES, Hq, length_app. simpl.
      destruct (Z.geb_spec (Z.of_nat (length (victimCache c))) (victimCacheSize c)).
      * destruct (victimCache c); simpl in *; lia.
      * lia.
Qed.

Lemma victim_buffer_is_fifo_witness :
  0 < victimCacheSize smallCacheWarm < 2 ^ 64 /\
  Z.of_nat (length (victimCache smallCacheWarm)) <= victimCacheSize smallCacheWarm /\
  victimCache (addAllToVictimCache smallCacheWarm
                 [mkBlock true false 5 0; mkBlock true false 6 0])
  = [mkBlock true false (2 ^ 29) 0; mkBlock true false 0 0;
     mkBlock true false 5 0; mkBlock true false 6 0].
Proof.
  split; [vm_compute; split; reflexivity |].
  split; [vm_compute; discriminate |].
  rewrite (victim_buffer_is_fifo smallCacheWarm
             [mkBlock true false 5 0; mkBlock true false 6 0]).
  - reflexivity.
  - vm_compute. split; reflexivity.
  - vm_compute. discriminate.
Defined.

(** ** Valid and dirty *)

Lemma Forall_getBlock (P : CacheBlock -> Prop) (c : Cache) (i : Z) (w : nat) :
  Forall (Forall P) (sets c) -> P emptyBlock -> P (getBlock c i w).
Proof.
  intros Hs He. unfold getBlock, getRow.
  destruct (sets c !! Z.to_nat i) as [row |] eqn:E; simpl; [| exact He].
  destruct (row !! w) as [b |] eqn:Eb; simpl; [| exact He].
  pose proof (proj1 (Forall_lookup _ _) Hs _ _ E) as Hrow.
  exact (proj1 (Forall_lookup _ _) Hrow _ _ Eb).
Qed.

Lemma Forall_setBlock (P : CacheBlock -> Prop) (c : Cache) (i : Z) (w : nat)
    (b : CacheBlock) :
  Forall (Forall P) (sets c) -> P b -> Forall (Forall P) (sets (setBlock c i w b)).
Proof.
  intros Hs Hb. simpl. apply Forall_alter; [exact Hs |].
  intros row _ Hrow. apply Forall_insert; assumption.
Qed.

Lemma getRow_setBlock (c : Cache) (i : Z) (w : nat) (b : CacheBlock) :
  getRow (setBlock c i w b) i = <[w := b]> (getRow c i).
Proof.
  unfold getRow, setBlock. simpl. rewrite list_lookup_alter_eq.
  destruct (sets c !! Z.to_nat i); reflexivity.
Qed.

Lemma setBlock_out_of_range (c : Cache) (i : Z) (w : nat) (b : CacheBlock) :
  ~ (w < length (getRow c i))%nat -> sets (setBlock c i w b) = sets c.
Proof.
  intros Hw. simpl. apply list_eq. intros j.
  destruct (decide (j = Z.to_nat i)) as [-> | Hj].
  - rewrite list_lookup_alter_eq. unfold getRow in Hw.
    destruct (sets c !! Z.to_nat i) as [row |]; simpl in *; [| reflexivity].
    rewrite list_insert_ge by lia. reflexivity.
  - rewrite list_lookup_alter_ne by congruence. reflexivity.
Qed.

Lemma Forall_sets_missFill (P : CacheBlock -> Prop) (c : Cache) (i t : Z)
    (isWrite : bool) :
  Forall (Forall P) (sets c) -> P emptyBlock ->
  (forall b, P b -> P (set_dirty b false)) ->
  (forall d, P (mkBlock true isWrite (trunc30 t) d)) ->
  Forall (Forall P) (sets (fst (missFill c i t isWrite))).
Proof.
  intros Hs He Hd Hn. unfold missFill, writeBack.
  assert (H2 : Forall (Forall P)
                 (sets (setBlock c i (getPseudoLRU c i)
                          (set_dirty (getBlock c i (getPseudoLRU c i)) false))))
    by (apply Forall_setBlock; [exact Hs | apply Hd, Forall_getBlock; assumption]).
  destruct (valid _ && dirty _); simpl;
    apply Forall_alter; try (intros row _ Hrow; apply Forall_insert; [exact Hrow | apply Hn]);
    destruct (valid _); assumption.
Qed.

Lemma Forall_front (P : CacheBlock -> Prop) (q : list CacheBlock) :
  Forall P q -> q <> [] -> P (front q).
Proof. intros H Hne. destruct q; [contradiction |]. inversion H; assumption. Qed.

Lemma blocksSound_new (size block assoc victimSize : Z) (c : Cache) :
  Cache_new size block assoc victimSize = Some c -> blocksSound c.
Proof.
  intros H. apply Cache_new_inv in H as (_ & _ & _ & _ & ->).
  split; simpl; [| constructor].
  apply Forall_replicate, Forall_replicate. discriminate.
Qed.

Lemma blocksSound_visited (c0 c : Cache) :
  blocksSound c0 -> visited c0 c -> blocksSound c.
Proof.
  intros H0 Hv.
  induction Hv as [| c a w Hv IH Hres | c a w Hv IH _ Hin | c a w Hv IH _ _].
  - exact H0.
  - destruct IH as [Hs Hq].
    rewrite <- hit_test_isAlreadyCached in Hres.
    apply andb_true_iff in Hres as [Hval _].
    split.
    + unfold hitUpdate. destruct w; simpl; [| exact Hs].
      apply Forall_alter; [exact Hs |].
      intros row _ Hrow. apply Forall_insert; [exact Hrow |].
      intros _. exact Hval.
    + destruct (victimCacheSize_hitUpdate c (addrIndex c a)
                  (predictWay c (addrIndex c a) (addrTag c a)) w) as [_ ->].
      exact Hq.
  - destruct IH as [Hs Hq].
    pose proof (checkVictimCache_Permutation c (addrTag c a)) as Hp.
    pose proof (sets_checkVictimCache c (addrTag c a)) as Es.
    destruct (checkVictimCache_present _ _ Hin)
      as (pre & b & post & _ & _ & _ & Ec).
    set (c1 := snd (fst (checkVictimCache c (addrTag c a)))) in *.
    assert (Hq1 : Forall (fun b => valid b = true /\ dirty b = false)
                    (victimCache c1)) by (rewrite Hp; exact Hq).
    assert (Hne : victimCache c1 <> []).
    { unfold c1. rewrite Ec. simpl. destruct post, pre; discriminate. }
    pose proof (Forall_front _ _ Hq1 Hne) as Hf.
    split.
    + unfold victimFill, insertBlockToCache.
      set (way := getPseudoLRU c1 (addrIndex c a)).
      set (c2 := setBlock c1 (addrIndex c a) way (front (victimCache c1))).
      assert (H2 : Forall (Forall (fun b => dirty b = true -> valid b = true))
                     (sets c2)).
      { apply Forall_setBlock; [rewrite Es; exact Hs |]. intros _. apply Hf. }
      change (Forall (Forall (fun b => dirty b = true -> valid b = true))
                (sets (setBlock c2 (addrIndex c a) way
                         (set_dirty (getBlock c2 (addrIndex c a) way) w)))).
      destruct (decide (way < length (getRow c2 (addrIndex c a)))%nat) as [Hw | Hw].
      * apply Forall_setBlock; [exact H2 |]. intros _.
        unfold getBlock, c2. rewrite getRow_setBlock.
        unfold c2 in Hw. rewrite getRow_setBlock, length_insert in Hw.
        rewrite list_lookup_insert_eq by exact Hw. simpl. apply Hf.
      * rewrite setBlock_out_of_range by exact Hw. exact H2.
    + change (Forall (fun b => valid b = true /\ dirty b = false)
                (pop (victimCache c1))).
      apply Forall_tail, Hq1.
  - destruct IH as [Hs Hq]. split.
    + apply Forall_sets_missFill; [exact Hs | discriminate | | ].
      * intros b _. discriminate.
      * intros d _. reflexivity.
    + destruct (missFill_effect c (addrIndex c a) (addrTag c a) w)
        as [-> _].
      destruct (valid (getBlock c (addrIndex c a) (getPseudoLRU c (addrIndex c a))))
        eqn:Ev; [| exact Hq].
      unfold push. apply Forall_app_2.
      * destruct (_ >=? _); [apply Forall_tail |]; exact Hq.
      * constructor; [| constructor]. split; [exact Ev | reflexivity].
Qed.

(** X12.  In every state a constructed cache goes through, a block of the
    store that is dirty is valid, and every block in the victim buffer is
    valid and clean: a line enters the buffer only through an eviction,
    which clears its dirty bit whether or not it was written back. *)
Theorem blocks_stay_sound
    (size block assoc victimSize : Z) (c0 c : Cache) (index : Z) (way : nat) :
  Cache_new size block assoc victimSize = Some c0 ->
  visited c0 c ->
  (dirty (getBlock c index way) = true -> valid (getBlock c index way) = true) /\
  Forall (fun b => valid b = true /\ dirty b = false) (victimCache c).
Proof.
  intros Hnew Hv.
  destruct (blocksSound_visited _ _ (blocksSound_new _ _ _ _ _ Hnew) Hv)
    as [Hs Hq].
  split; [| exact Hq].
  apply (Forall_getBlock (fun b => dirty b = true -> valid b = true));
    [exact Hs | discriminate].
Qed.

Lemma blocks_stay_sound_witness :
  Cache_new (2 ^ 29) (2 ^ 28) 1 4 = Some smallCache /\
  visited smallCache smallCacheWarm /\
  (dirty (getBlock smallCacheWarm 1 0) = true ->
   valid (getBlock smallCacheWarm 1 0) = true) /\
  Forall (fun b => valid b = true /\ dirty b = false) (victimCache smallCacheWarm).
Proof.
  split; [exact smallCache_new |]. split; [exact smallCacheWarm_visited |].
  exact (blocks_stay_sound _ _ _ _ _ _ 1 0%nat
           smallCache_new smallCacheWarm_visited).
Defined.

(** ** What a call prints *)

Lemma missFill_events (c : Cache) (i t : Z) (w : bool) :
  exists rest, snd (missFill c i t w) = EvMiss :: rest /\
               existsb isHit rest = false /\
               existsb isLevelEvent rest = false.
Proof.
  destruct (missFill_effect c i t w) as [_ ->].
  eexists. split; [reflexivity |].
  destruct (valid _ && dirty _); split; reflexivity.
Qed.

(** X13.  The first line a call of [accessCache] prints tells its result,
    and the lookup decides both: the line of a store hit, with the set and
    the way, and true when the tag is in the set; the line of a victim hit,
    alone, and true when the tag is only in the victim buffer; the miss
    line and false when it is in neither. *)
Theorem result_matches_first_line (fuel : nat) (c c' : Cache) (address : Z)
    (isWrite r : bool) (tr : list Event) :
  accessCache fuel c address isWrite = Some (r, c', tr) ->
  let index := addrIndex c address in
  let t := addrTag c address in
  (isAlreadyCached c index t = true /\ r = true /\
   exists rest, tr = EvHit index (predictWay c index t) :: rest) \/
  (isAlreadyCached c index t = false /\ inVictim c t = true /\ r = true /\
   tr = [EvVictimHit]) \/
  (isAlreadyCached c index t = false /\ inVictim c t = false /\ r = false /\
   exists rest, tr = EvMiss :: rest).
Proof.
  intros H index t. destruct fuel as [| fuel]; [discriminate |].
  rewrite accessCache_paths in H. fold index t in H.
  destruct (isAlreadyCached c index t) eqn:Hres.
  - left. split; [reflexivity |].
    unfold prefetchStep in H. cbv zeta in H.
    destruct (isAlreadyCached _ _ _) in H.
    + injection H as <- _ <-. split; [reflexivity |]. eexists. reflexivity.
    + destruct (accessCache fuel _ _ false) as [[[r2 c2] tr2] |]; [| discriminate].
      injection H as <- _ <-. split; [reflexivity |]. eexists. reflexivity.
  - right. destruct (inVictim c t) eqn:Hv.
    + left. injection H as <- _ <-. repeat split; reflexivity.
    + right. split; [reflexivity |]. split; [reflexivity |].
      destruct (missFill_events c index t isWrite) as (rest & E & _).
      unfold prefetchStep in H. cbv zeta in H. rewrite E in H.
      destruct (isAlreadyCached _ _ _) in H.
      * injection H as <- _ <-. split; [reflexivity |]. eexists. reflexivity.
      * destruct (accessCache fuel _ _ false) as [[[r2 c2] tr2] |]; [| discriminate].
        injection H as <- _ <-. split; [reflexivity |]. eexists. reflexivity.
Qed.

Lemma result_matches_first_line_witness :
  exists tr,
    accessCache 20 smallCache 0 false = Some (false, smallCacheWarm, tr) /\
    exists rest, tr = EvMiss :: rest.
Proof.
  destruct smallCache_read_0 as [tr E]. exists tr. split; [exact E |].
  destruct (result_matches_first_line _ _ _ _ _ _ _ E)
    as [(_ & D & _) | [(_ & _ & D & _) | (_ & _ & _ & R)]];
    [discriminate D | discriminate D | exact R].
Defined.

(** X14.  Only the first line of a call can be a store hit.  The accesses
    that [prefetchNextLine] starts are made for lines that are not in the
    store, so none of them prints "Cache hit at set ..."; and a call for a
    line that is not in the store prints no such line at all. *)
Theorem prefetch_never_hits_store (fuel : nat) (c c' : Cache) (address : Z)
    (isWrite r : bool) (tr : list Event) :
  accessCache fuel c address isWrite = Some (r, c', tr) ->
  existsb isHit (tail tr) = false /\
  (isAlreadyCached c (addrIndex c address) (addrTag c address) = false ->
   existsb isHit tr = false).
Proof.
  revert c c' address isWrite r tr.
  induction fuel as [| fuel IH]; intros c c' address isWrite r tr H;
    [discriminate |].
  rewrite accessCache_paths in H.
  destruct (isAlreadyCached c (addrIndex c address) (addrTag c address)) eqn:Hres.
  - unfold prefetchStep in H. cbv zeta in H.
    destruct (isAlreadyCached _ _ _) eqn:Hnext in H.
    + injection H as _ _ <-. split; [reflexivity | discriminate].
    + destruct (accessCache fuel _ _ false) as [[[r2 c2] tr2] |] eqn:E;
        [| discriminate].
      injection H as _ _ <-. split; [| discriminate].
      simpl. exact (proj2 (IH _ _ _ _ _ _ E) Hnext).
  - destruct (inVictim c (addrTag c address)).
    + injection H as _ _ <-. split; [reflexivity | intros _; reflexivity].
    + destruct (missFill_events c (addrIndex c address) (addrTag c address) isWrite)
        as (rest & Em & Hrest & _).
      unfold prefetchStep in H. cbv zeta in H. rewrite Em in H.
      destruct (isAlreadyCached _ _ _) eqn:Hnext in H.
      * injection H as _ _ <-. simpl. split; [exact Hrest | intros _; exact Hrest].
      * destruct (accessCache fuel _ _ false) as [[[r2 c2] tr2] |] eqn:E;
          [| discriminate].
        injection H as _ _ <-. simpl.
        rewrite existsb_app, Hrest. simpl.
        pose proof (proj2 (IH _ _ _ _ _ _ E) Hnext) as Hn.
        split; [exact Hn | intros _; exact Hn].
Qed.

Lemma prefetch_never_hits_store_witness :
  exists tr,
    accessCache 20 smallCache 0 false = Some (false, smallCacheWarm, tr) /\
    existsb isHit (tail tr) = false.
Proof.
  destruct smallCache_read_0 as [tr E]. exists tr. split; [exact E |].
  exact (proj1 (prefetch_never_hits_store _ _ _ _ _ _ _ E)).
Defined.


(** X15.  The first access to a cache the constructor has just built is a
    miss whenever it returns, for every address, read or write: the result
    is false and the output starts with the miss line. *)
Theorem first_access_is_a_miss (size block assoc victimSize : Z) (fuel : nat)
    (c c' : Cache) (address : Z) (isWrite r : bool) (tr : list Event) :
  Cache_new size block assoc victimSize = Some c ->
  accessCache fuel c address isWrite = Some (r, c', tr) ->
  r = false /\ exists rest, tr = EvMiss :: rest.
Proof.
  intros Hnew H.
  assert (Hres : isAlreadyCached c (addrIndex c address) (addrTag c address) = false).
  { rewrite <- hit_test_isAlreadyCached, (getBlock_new _ _ _ _ _ _ _ Hnew).
    reflexivity. }
  assert (Hv : inVictim c (addrTag c address) = false).
  { pose proof (Cache_new_inv _ _ _ _ _ Hnew) as (_ & _ & _ & _ & ->).
    reflexivity. }
  destruct fuel as [| fuel]; [discriminate |].
  rewrite accessCache_paths, Hres, Hv in H.
  destruct (missFill_events c (addrIndex c address) (addrTag c address) isWrite)
    as (rest & Em & _).
  unfold prefetchStep in H. cbv zeta in H. rewrite Em in H.
  destruct (isAlreadyCached _ _ _) in H.
  - injection H as <- _ <-. split; [reflexivity |]. eexists. reflexivity.
  - destruct (accessCache fuel _ _ false) as [[[r2 c2] tr2] |]; [| discriminate].
    injection H as <- _ <-. split; [reflexivity |]. eexists. reflexivity.
Qed.

Lemma first_access_is_a_miss_witness :
  exists tr,
    Cache_new (2 ^ 29) (2 ^ 28) 1 4 = Some smallCache /\
    accessCache 20 smallCache 0 false = Some (false, smallCacheWarm, tr) /\
    exists rest, tr = EvMiss :: rest.
Proof.
  destruct smallCache_read_0 as [tr E]. exists tr.
  split; [exact smallCache_new |]. split; [exact E |].
  exact (proj2 (first_access_is_a_miss _ _ _ _ _ _ _ _ _ _ _ smallCache_new E)).
Defined.

(** ** Fill and lookup *)

Lemma getBlock_missFill (c : Cache) (i t : Z) (w : bool) :
  getPseudoLRU c i = 0%nat -> (0 < length (getRow c i))%nat ->
  getBlock (fst (missFill c i t w)) i 0 =
  mkBlock true w (trunc30 t) (data (getBlock c i 0)).
Proof.
  intros Hp Hlen. unfold getBlock at 1, getRow at 1.
  rewrite (missFill_sets c i t w Hp), list_lookup_alter_eq.
  unfold getRow in Hlen.
  destruct (sets c !! Z.to_nat i) as [row |]; simpl in *; [| lia].
  rewrite list_lookup_insert_eq by exact Hlen. reflexivity.
Qed.

(** X16.  The line a miss has just loaded is found again by the lookup
    exactly when its tag fits the 30-bit field: for a tag below 2^30 the
    fill makes the line resident, for a tag from 2^30 on the set does not
    hold the line even right after the fill. *)
Theorem filled_line_found_iff_tag_fits
    (size block assoc victimSize : Z) (c0 c : Cache) (address : Z)
    (isWrite : bool) :
  Cache_new size block assoc victimSize = Some c0 ->
  visited c0 c ->
  0 <= address ->
  let index := addrIndex c address in
  let t := addrTag c address in
  isAlreadyCached (fst (missFill c index t isWrite)) index t = (t <? 2 ^ 30).
Proof.
  intros Hnew Hv Ha index t.
  pose proof (way0Only_visited _ _ (way0Only_new _ _ _ _ _ Hnew) Hv) as Hw.
  pose proof (visited_in_range _ _ _ _ _ _ address Hnew Hv) as (_ & _ & _ & Hr).
  fold index in Hr.
  pose proof (way0Only_getPseudoLRU c index Hw) as Hp. rewrite Hp in Hr.
  rewrite (way0Only_isAlreadyCached _ index t
             (way0Only_missFill c index t isWrite Hw)).
  rewrite (getBlock_missFill c index t isWrite Hp Hr). simpl.
  assert (Ht : 0 <= t) by (apply Z.land_nonneg; left; exact Ha).
  unfold trunc30. destruct (Z.ltb_spec t (2 ^ 30)) as [Hlt | Hge].
  - rewrite Z.mod_small by lia. apply Z.eqb_refl.
  - apply Z.eqb_neq. pose proof (Z.mod_pos_bound t (2 ^ 30)). lia.
Qed.

Lemma filled_line_found_iff_tag_fits_witness :
  Cache_new (2 ^ 29) (2 ^ 28) 1 4 = Some smallCache /\
  visited smallCache smallCacheWarm /\
  isAlreadyCached
    (fst (missFill smallCacheWarm (addrIndex smallCacheWarm (2 ^ 30))
            (addrTag smallCacheWarm (2 ^ 30)) false))
    (addrIndex smallCacheWarm (2 ^ 30)) (addrTag smallCacheWarm (2 ^ 30))
  = (addrTag smallCacheWarm (2 ^ 30) <? 2 ^ 30).
Proof.
  split; [exact smallCache_new |]. split; [exact smallCacheWarm_visited |].
  apply (filled_line_found_iff_tag_fits _ _ _ _ _ _ _ _ smallCache_new
           smallCacheWarm_visited).
  lia.
Defined.

(** ** A store hit *)

Lemma existsb_insert_same {A : Type} (f : A -> bool) (row : list A) (w : nat)
    (b : A) :
  (forall x, row !! w = Some x -> f b = f x) ->
  existsb f (<[w := b]> row) = existsb f row.
Proof.
  revert w. induction row as [| y row IH]; intros w H; [reflexivity |].
  destruct w as [| w]; simpl.
  - rewrite (H y eq_refl). reflexivity.
  - rewrite (IH w) by exact H. reflexivity.
Qed.

(** X17.  What a store hit changes (lines 55-56).  The same lines are
    resident afterwards, in every set and for every tag, and the victim
    buffer is the same.  A read hit leaves every block as it was; a write
    hit sets the dirty bit of the block that was hit and changes nothing
    else in it. *)
Theorem store_hit_keeps_lines (c : Cache) (index : Z) (way : nat)
    (isWrite : bool) (index' t' : Z) :
  let c' := hitUpdate c index way isWrite in
  isAlreadyCached c' index' t' = isAlreadyCached c index' t' /\
  victimCache c' = victimCache c /\
  (isWrite = false -> sets c' = sets c) /\
  (isWrite = true -> (way < length (getRow c index))%nat ->
   getBlock c' index way = set_dirty (getBlock c index way) true).
Proof.
  intros c'. subst c'. unfold hitUpdate.
  split; [| split; [| split]].
  - destruct isWrite; [| reflexivity].
    unfold isAlreadyCached, getRow. simpl.
    destruct (decide (Z.to_nat index' = Z.to_nat index)) as [E | N].
    + rewrite E, list_lookup_alter_eq. unfold getBlock, getRow.
      destruct (sets c !! Z.to_nat index) as [row |]; simpl; [| reflexivity].
      apply existsb_insert_same. intros x Hx. rewrite Hx. reflexivity.
    + rewrite list_lookup_alter_ne by congruence. reflexivity.
  - destruct isWrite; reflexivity.
  - intros ->. reflexivity.
  - intros -> Hlen. unfold getBlock at 1, getRow at 1. simpl.
    rewrite list_lookup_alter_eq. unfold getRow in Hlen.
    destruct (sets c !! Z.to_nat index) as [row |] eqn:E; simpl in *; [| lia].
    rewrite list_lookup_insert_eq by exact Hlen. reflexivity.
Qed.

(** ** A hit in the victim buffer *)

(** X18.  A victim hit in general.  When the tag is not in the set and its
    first match in the buffer is [b], between [pre] and [post], the call
    returns true with the one line of a victim hit.  Way 0 of the set then
    holds the block that stood behind [b] (the front of post ++ pre ++ [b]),
    with its dirty bit set to the write flag; that block has left the
    buffer, and [b] is still in it unless it was alone.  The line asked for
    is resident afterwards exactly when the block installed carries its
    tag. *)
Theorem victim_hit_installs_front_block
    (size block assoc victimSize : Z) (c0 c : Cache) (address : Z)
    (isWrite : bool) (fuel : nat)
    (pre post : list CacheBlock) (b : CacheBlock) :
  Cache_new size block assoc victimSize = Some c0 ->
  visited c0 c ->
  let index := addrIndex c address in
  let t := addrTag c address in
  isAlreadyCached c index t = false ->
  victimCache c = pre ++ b :: post ->
  Forall (fun x => tag x <> t) pre -> tag b = t ->
  exists c',
    accessCache (S fuel) c address isWrite = Some (true, c', [EvVictimHit]) /\
    getBlock c' index 0 = set_dirty (front (post ++ pre ++ [b])) isWrite /\
    victimCache c' = tail (post ++ pre ++ [b]) /\
    isAlreadyCached c' index t = (tag (front (post ++ pre ++ [b])) =? t).
Proof.
  intros Hnew Hv index t Hres Eq Hpre Hb.
  assert (Hin : inVictim c t = true).
  { unfold inVictim. rewrite Eq, existsb_app. simpl.
    rewrite (proj2 (Z.eqb_eq _ _) Hb). apply orb_true_r. }
  pose proof (way0Only_visited _ _ (way0Only_new _ _ _ _ _ Hnew) Hv) as Hw.
  pose proof (visited_in_range _ _ _ _ _ _ address Hnew Hv) as (_ & _ & _ & Hr).
  fold index in Hr.
  pose proof (way0Only_getPseudoLRU c index Hw) as Hp.
  destruct (victimFill_after_scan c t index isWrite pre post b Eq Hpre Hb)
    as (Eq1 & Eq2 & Eb).
  specialize (Eb Hr). rewrite Hp in Eb.
  set (c1 := snd (fst (checkVictimCache c t))) in *.
  exists (victimFill c1 index isWrite).
  split; [| split; [exact Eb | split; [exact Eq2 |]]].
  - rewrite accessCache_paths. fold index t. rewrite Hres, Hin. reflexivity.
  - assert (Hw1 : way0Only c1) by (apply way0Only_checkVictimCache, Hw).
    rewrite (way0Only_isAlreadyCached _ index t
               (way0Only_victimFill c1 index isWrite Hw1)), Eb.
    assert (Hval : valid (front (post ++ pre ++ [b])) = true).
    { destruct (blocksSound_visited _ _ (blocksSound_new _ _ _ _ _ Hnew) Hv)
        as [_ Hq].
      rewrite Eq in Hq. apply Forall_app in Hq as [Hq1 Hq2].
      inversion Hq2 as [| x q Hqb Hq3]. subst x q.
      refine (proj1 (Forall_front
                       (fun x => valid x = true /\ dirty x = false) _ _ _)).
      - apply Forall_app_2; [exact Hq3 |].
        apply Forall_app_2; [exact Hq1 |]. constructor; [exact Hqb | constructor].
      - destruct post, pre; discriminate. }
    destruct (front _); simpl in *. rewrite Hval. reflexivity.
Qed.

Lemma victim_hit_installs_front_block_witness :
  Cache_new (2 ^ 29) (2 ^ 28) 1 4 = Some smallCache /\
  visited smallCache smallCacheWarm /\
  isAlreadyCached smallCacheWarm (addrIndex smallCacheWarm (2 ^ 28))
    (addrTag smallCacheWarm (2 ^ 28)) = false /\
  victimCache smallCacheWarm
  = [mkBlock true false (2 ^ 29) 0; mkBlock true false (2 ^ 29) 0]
    ++ mkBlock true false 0 0 :: [] /\
  exists c',
    accessCache 1 smallCacheWarm (2 ^ 28) false = Some (true, c', [EvVictimHit]) /\
    getBlock c' (addrIndex smallCacheWarm (2 ^ 28)) 0
    = set_dirty (front ([] ++ [mkBlock true false (2 ^ 29) 0;
                                mkBlock true false (2 ^ 29) 0]
                         ++ [mkBlock true false 0 0])) false /\
    victimCache c'
    = tail ([] ++ [mkBlock true false (2 ^ 29) 0; mkBlock true false (2 ^ 29) 0]
            ++ [mkBlock true false 0 0]) /\
    isAlreadyCached c' (addrIndex smallCacheWarm (2 ^ 28))
      (addrTag smallCacheWarm (2 ^ 28))
    = (tag (front ([] ++ [mkBlock true false (2 ^ 29) 0;
                          mkBlock true false (2 ^ 29) 0]
                   ++ [mkBlock true false 0 0]))
       =? addrTag smallCacheWarm (2 ^ 28)).
Proof.
  split; [exact smallCache_new |]. split; [exact smallCacheWarm_visited |].
  split; [reflexivity |]. split; [reflexivity |].
  apply (victim_hit_installs_front_block _ _ _ _ _ _ (2 ^ 28) false 0
           [mkBlock true false (2 ^ 29) 0; mkBlock true false (2 ^ 29) 0] []
           (mkBlock true false 0 0) smallCache_new smallCacheWarm_visited).
  - reflexivity.
  - reflexivity.
  - repeat constructor; vm_compute; discriminate.
  - reflexivity.
Defined.

(** ** Configuration and ranges *)

Lemma map_length_Forall {A : Type} (k : nat) (l l' : list (list A)) :
  map length l = map length l' ->
  Forall (fun row => length row = k) l' ->
  Forall (fun row => length row = k) l.
Proof.
  revert l'. induction l as [| r l IH]; intros [| r' l'] E H;
    try discriminate; [constructor |].
  simpl in E. injection E as Er El. inversion H as [| x q Hr' Hl']. subst x q.
  constructor; [congruence | exact (IH _ El Hl')].
Qed.

Lemma setsShaped_visited (size block assoc victimSize : Z) (c0 c : Cache) :
  Cache_new size block assoc victimSize = Some c0 ->
  visited c0 c -> setsShaped c.
Proof.
  intros Hnew Hv.
  pose proof (sameShape_visited _ _ Hv) as (Hs & _ & _ & _ & HN & HW).
  pose proof (Cache_new_inv _ _ _ _ _ Hnew) as (_ & _ & _ & _ & E0).
  unfold setsShaped. rewrite HN, HW. subst c0. simpl in *. split.
  - apply (f_equal (@length nat)) in Hs.
    rewrite !length_map, length_replicate in Hs. exact Hs.
  - apply (map_length_Forall _ _ _ Hs), Forall_replicate, length_replicate.
Qed.

(** X19.  No call changes the configuration of a cache or the shape of its
    store: in every state a constructed cache goes through, the sizes, the
    number of sets and of ways, the capacity of the victim buffer and the
    two masks are those the constructor computed, and the store has
    [numSets] sets of [ways] blocks each. *)
Theorem configuration_never_changes
    (size block assoc victimSize : Z) (c0 c : Cache) :
  Cache_new size block assoc victimSize = Some c0 ->
  visited c0 c ->
  cacheSize c = size /\ blockSize c = block /\
  numSets c = Z.quot (Z.quot size block) assoc /\ ways c = assoc /\
  victimCacheSize c = victimSize /\
  setMask c = setMask c0 /\ tagMask c = tagMask c0 /\
  setsShaped c.
Proof.
  intros Hnew Hv.
  pose proof (sameShape_visited _ _ Hv) as (_ & HB & HS & HT & HN & HW).
  pose proof (fixedFields_visited _ _ Hv) as [HC HV].
  pose proof (setsShaped_visited _ _ _ _ _ _ Hnew Hv) as Hsh.
  pose proof (Cache_new_inv _ _ _ _ _ Hnew) as (_ & _ & _ & _ & E0).
  rewrite HC, HB, HN, HW, HV, HS, HT. subst c0. simpl.
  repeat split; try reflexivity; apply Hsh.
Qed.

Lemma configuration_never_changes_witness :
  Cache_new (2 ^ 29) (2 ^ 28) 1 4 = Some smallCache /\
  visited smallCache smallCacheWarm /\
  cacheSize smallCacheWarm = 2 ^ 29 /\ blockSize smallCacheWarm = 2 ^ 28 /\
  numSets smallCacheWarm = Z.quot (Z.quot (2 ^ 29) (2 ^ 28)) 1 /\
  ways smallCacheWarm = 1 /\
  victimCacheSize smallCacheWarm = 4 /\
  setMask smallCacheWarm = setMask smallCache /\
  tagMask smallCacheWarm = tagMask smallCache /\
  setsShaped smallCacheWarm.
Proof.
  split; [exact smallCache_new |]. split; [exact smallCacheWarm_visited |].
  exact (configuration_never_changes _ _ _ _ _ _
           smallCache_new smallCacheWarm_visited).
Defined.

(** X20.  With a victim capacity of at least one entry no call on a
    constructed cache reads or writes outside a vector or takes from an
    empty queue: the set index is a set of the store and a row of the
    counters; the ways [predictWay] and [getPseudoLRU] return are ways of
    that set; the set has as many counters as blocks; the queue is not
    empty when the front is read after a victim hit, nor when
    [addToVictimCache] pops because the buffer is full. *)
Theorem no_access_outside_the_vectors
    (size block assoc victimSize : Z) (c0 c : Cache) (address : Z) :
  Cache_new size block assoc victimSize = Some c0 ->
  0 < victimSize < 2 ^ 64 ->
  visited c0 c ->
  let index := addrIndex c address in
  let t := addrTag c address in
  0 <= index /\
  (Z.to_nat index < length (sets c))%nat /\
  (Z.to_nat index < length (pseudoLRU c))%nat /\
  (predictWay c index t < length (getRow c index))%nat /\
  (getPseudoLRU c index < length (getRow c index))%nat /\
  length (getCounters c index) = length (getRow c index) /\
  (inVictim c t = true ->
   victimCache (snd (fst (checkVictimCache c t))) <> []) /\
  (Z.of_nat (length (victimCache c)) >= wrap64 (victimCacheSize c) ->
   victimCache c <> []).
Proof.
  intros Hnew HV Hv index t.
  pose proof (visited_in_range _ _ _ _ _ _ address Hnew Hv)
    as (Hi0 & Hi & Hpw & Hrw).
  fold index t in Hi0, Hi, Hpw, Hrw.
  pose proof (setsShaped_visited _ _ _ _ _ _ Hnew Hv) as [Hl Hrows].
  pose proof (countersSound_visited _ _ (countersSound_new _ _ _ _ _ Hnew) Hv)
    as (Hcl & Hcrows & _).
  assert (Hic : (Z.to_nat index < length (pseudoLRU c))%nat) by lia.
  repeat split; try assumption.
  - unfold getCounters, getRow.
    destruct (lookup_lt_is_Some_2 _ _ Hi) as [row Er].
    destruct (lookup_lt_is_Some_2 _ _ Hic) as [cnt Ec].
    rewrite Er, Ec. simpl.
    rewrite (proj1 (Forall_lookup _ _) Hrows _ _ Er).
    exact (proj1 (Forall_lookup _ _) Hcrows _ _ Ec).
  - intros Hin.
    destruct (checkVictimCache_present _ _ Hin)
      as (pre & b & post & _ & _ & _ & ->).
    simpl. destruct post, pre; discriminate.
  - intros Hfull E.
    rewrite (victimCacheSize_visited _ _ _ _ _ _ Hnew Hv) in Hfull.
    unfold wrap64 in Hfull. rewrite Z.mod_small in Hfull by lia.
    rewrite E in Hfull. simpl in Hfull. lia.
Qed.

Lemma no_access_outside_the_vectors_witness :
  Cache_new (2 ^ 29) (2 ^ 28) 1 4 = Some smallCache /\
  0 < 4 < 2 ^ 64 /\
  visited smallCache smallCacheWarm /\
  (Z.to_nat (addrIndex smallCacheWarm (2 ^ 28)) < length (sets smallCacheWarm))%nat /\
  victimCache (snd (fst (checkVictimCache smallCacheWarm
                           (addrTag smallCacheWarm (2 ^ 28))))) <> [].
Proof.
  split; [exact smallCache_new |]. split; [lia |].
  split; [exact smallCacheWarm_visited |].
  destruct (no_access_outside_the_vectors _ _ _ _ _ _ (2 ^ 28) smallCache_new
              ltac:(lia) smallCacheWarm_visited)
    as (_ & Hi & _ & _ & _ & _ & Hq & _).
  split; [exact Hi | apply Hq; reflexivity].
Defined.

(** X21.  Every tag stored in a constructed cache, in a set or in the
    victim buffer, is below 2^30.  An address whose tag is 2^30 or more is
    therefore found neither in its set nor in the buffer, in any state, and
    every access to it that returns is a miss. *)
Theorem tags_from_2_30_never_found
    (size block assoc victimSize : Z) (c0 c : Cache) (address : Z) :
  Cache_new size block assoc victimSize = Some c0 ->
  visited c0 c ->
  2 ^ 30 <= addrTag c address ->
  tagsInField c /\
  isAlreadyCached c (addrIndex c address) (addrTag c address) = false /\
  inVictim c (addrTag c address) = false /\
  forall fuel isWrite r c' tr,
    accessCache fuel c address isWrite = Some (r, c', tr) -> r = false.
Proof.
  intros Hnew Hv Ht.
  pose proof (tagsInField_visited _ _ (tagsInField_new _ _ _ _ _ Hnew) Hv) as Hf.
  destruct (high_tag_not_found c (addrIndex c address) _ Hf Ht) as [E1 E2].
  split; [exact Hf |]. split; [exact E1 |]. split; [exact E2 |].
  intros fuel isWrite r c' tr H.
  exact (high_tag_access_misses _ _ _ _ _ _ _ _ _ _ _ _ Hnew Hv Ht H).
Qed.

Lemma tags_from_2_30_never_found_witness :
  Cache_new (2 ^ 29) (2 ^ 28) 1 4 = Some smallCache /\
  visited smallCache smallCacheWarm /\
  2 ^ 30 <= addrTag smallCacheWarm (2 ^ 30) /\
  isAlreadyCached smallCacheWarm (addrIndex smallCacheWarm (2 ^ 30))
    (addrTag smallCacheWarm (2 ^ 30)) = false /\
  inVictim smallCacheWarm (addrTag smallCacheWarm (2 ^ 30)) = false.
Proof.
  split; [exact smallCache_new |]. split; [exact smallCacheWarm_visited |].
  split; [vm_compute; discriminate |].
  destruct (tags_from_2_30_never_found _ _ _ _ _ _ (2 ^ 30) smallCache_new
              smallCacheWarm_visited ltac:(vm_compute; discriminate))
    as (_ & E1 & E2 & _).
  split; [exact E1 | exact E2].
Defined.

(** ** The hierarchy and [main] *)




(** X23.  On the hierarchy as [MultiLevelCache] builds it (32 KiB and
    256 KiB, blocks of 64 bytes, 8 ways) no call of [accessMemory] returns,
    whatever the 32-bit address and the write flag: the first thing it
    does is a call of [accessCache] on the fresh L1, which starts a chain
    of prefetches that has no end. *)
Theorem hierarchy_access_never_returns (m : MultiLevelCache) (address : Z)
    (isWrite : bool) :
  MultiLevelCache_new = Some m ->
  0 <= address < 2 ^ 32 ->
  forall fuel, accessMemory fuel m address isWrite = None.
Proof.
  unfold MultiLevelCache_new. intros Hm Ha fuel.
  destruct (Cache_new (32 * 1024) 64 8 8) as [l1 |] eqn:E1; [| discriminate].
  destruct (Cache_new (256 * 1024) 64 8 16) as [l2 |] eqn:E2; [| discriminate].
  injection Hm as <-. unfold accessMemory. simpl.
  assert (HN : numSets l1 = 2 ^ 6).
  { pose proof (Cache_new_inv _ _ _ _ _ E1) as (_ & _ & _ & _ & ->).
    reflexivity. }
  assert (I : cascadeInv 6 6 8 0 address l1).
  { apply (cascadeInv_new (32 * 1024) 64 8 8);
      [exact E1 | lia | lia | reflexivity | exact HN | exact Ha]. }
  rewrite (cascade_diverges 6 6 8 ltac:(lia) ltac:(lia) ltac:(lia)
             ltac:(vm_compute; discriminate) fuel 0 address l1 isWrite I).
  reflexivity.
Qed.

Lemma hierarchy_access_never_returns_witness :
  exists m,
    MultiLevelCache_new = Some m /\ 0 <= 200 < 2 ^ 32 /\
    forall fuel, accessMemory fuel m 200 true = None.
Proof.
  destruct MultiLevelCache_new as [m |] eqn:E; [| vm_compute in E; discriminate].
  exists m. split; [reflexivity |]. split; [lia |].
  apply (hierarchy_access_never_returns m 200 true E). lia.
Defined.

